(** * bro-pdns: the DNS aggregation engine and its PostgreSQL store

    A shallow embedding of [aggregate.go] and [store_pg.go].

    Modelling conventions.
    - Go's [uint] (64 bits) is a [Z] reduced modulo [2^64] after every
      addition.
    - Timestamps are [float64] in the source.  The aggregation code only copies
      and compares them ([<], [>]); they are modelled by [Z], i.e. by finite
      numbers under their usual order.
    - [*queryStat] pointers are locations in an explicit heap of [queryStat]
      cells; the two Go maps of an aggregator map keys to locations, so that
      the sharing introduced by [Merge] ([d.queries[q] = stat]) is visible.
    - A run-time panic (index out of range) is the result [None].
    - Wall-clock readings ([time.Now], [time.Since]) are left out. *)

From stdpp Require Import gmap strings list fin_maps.
From stdpp Require Import pretty.
From Stdlib Require Import ZArith Lia Ascii.

Local Open Scope string_scope.
Local Open Scope list_scope.
Local Open Scope Z_scope.

(** ** Machine integers *)

Definition uint_modulus : Z := 2 ^ 64.

(** [a + b] on Go's [uint]. *)
Definition uint_add (a b : Z) : Z := (a + b) mod uint_modulus.

(** ** aggregate.go: data *)

Definition MAX_SANE_VALUE_LEN : Z := 1000.

(** [len(s)] of a Go string: its number of bytes. *)
Definition len (s : string) : Z := Z.of_nat (String.length s).

Definition stripDecimal (value : string) : string :=
  if String.eqb value "-" then "0"
  else match String.index 0 "." value with
       | None => value
       | Some idx => String.substring 0 idx value
       end.

Record DNSRecord := {
  ts : Z;
  query : string;
  qtype : string;
  answers : list string;
  ttls : list string
}.

Record uniqueTuple := {
  ut_query : string;
  ut_answer : string;
  ut_qtype : string
}.

Record uniqueIndividual := {
  value : string;
  which : string (* "Q" or "A" *)
}.

Record queryStat := {
  count : Z;
  first : Z;
  last : Z;
  ttl : string
}.

Global Instance uniqueTuple_eq_dec : EqDecision uniqueTuple.
Proof. solve_decision. Defined.

Global Instance uniqueTuple_countable : Countable uniqueTuple.
Proof.
  refine (inj_countable'
            (λ t, (ut_query t, ut_answer t, ut_qtype t))
            (λ p, {| ut_query := p.1.1; ut_answer := p.1.2; ut_qtype := p.2 |}) _).
  by intros [].
Defined.

Global Instance uniqueIndividual_eq_dec : EqDecision uniqueIndividual.
Proof. solve_decision. Defined.

Global Instance uniqueIndividual_countable : Countable uniqueIndividual.
Proof.
  refine (inj_countable'
            (λ v, (value v, which v))
            (λ p, {| value := p.1; which := p.2 |}) _).
  by intros [].
Defined.

Global Instance queryStat_eq_dec : EqDecision queryStat.
Proof. solve_decision. Defined.

(** ** The heap of [queryStat] cells *)

Abbreviation loc := nat (only parsing).
Abbreviation heap := (list queryStat) (only parsing).

(** Go's zero value of the struct. *)
Definition zeroStat : queryStat :=
  {| count := 0; first := 0; last := 0; ttl := "" |}.

Definition load (h : heap) (l : loc) : queryStat := default zeroStat (h !! l).
Definition store (h : heap) (l : loc) (s : queryStat) : heap := <[l := s]> h.
(** [&queryStat{...}]: a fresh cell. *)
Definition alloc (h : heap) (s : queryStat) : loc * heap := (List.length h, h ++ [s]).

Record DNSAggregator := {
  queries : gmap uniqueTuple loc;
  values : gmap uniqueIndividual loc;
  totalRecords : Z;
  skippedRecords : Z
}.

Definition set_queries (m : gmap uniqueTuple loc) (d : DNSAggregator) :=
  {| queries := m; values := values d;
     totalRecords := totalRecords d; skippedRecords := skippedRecords d |}.
Definition set_values (m : gmap uniqueIndividual loc) (d : DNSAggregator) :=
  {| queries := queries d; values := m;
     totalRecords := totalRecords d; skippedRecords := skippedRecords d |}.
Definition incr_total (d : DNSAggregator) :=
  {| queries := queries d; values := values d;
     totalRecords := uint_add (totalRecords d) 1;
     skippedRecords := skippedRecords d |}.

Definition NewDNSAggregator : DNSAggregator :=
  {| queries := ∅; values := ∅; totalRecords := 0; skippedRecords := 0 |}.

Definition SkipRecord (d : DNSAggregator) : DNSAggregator :=
  {| queries := queries d; values := values d;
     totalRecords := totalRecords d;
     skippedRecords := uint_add (skippedRecords d) 1 |}.

(** ** AddRecord *)

(** [&queryStat{first: r.ts, last: r.ts, ttl: ttl, count: 1}] *)
Definition firstSeen (t : Z) (ttl0 : string) : queryStat :=
  {| count := 1; first := t; last := t; ttl := ttl0 |}.

(** [arec.count++; arec.last = r.ts] *)
Definition seenAgain (t : Z) (s : queryStat) : queryStat :=
  {| count := uint_add (count s) 1; first := first s; last := t; ttl := ttl s |}.

(** [rec.count++; rec.last = r.ts; rec.ttl = ttl] *)
Definition seenAgainTTL (t : Z) (ttl0 : string) (s : queryStat) : queryStat :=
  {| count := uint_add (count s) 1; first := first s; last := t; ttl := ttl0 |}.

(** The pattern the source repeats three times:
    [x := m[k]; if x == nil { x = &queryStat{..}; m[k] = x } else { x.f = .. }] *)
Definition upsert {K} `{Countable K} (h : heap) (m : gmap K loc) (k : K)
    (fresh : queryStat) (upd : queryStat → queryStat) : heap * gmap K loc :=
  match m !! k with
  | None => let '(l, h') := alloc h fresh in (h', <[k := l]> m)
  | Some rec => (store h rec (upd (load h rec)), m)
  end.

(** [for idx, answer := range r.answers { ... }], from slot [idx] on. *)
Fixpoint answersLoop (r : DNSRecord) (idx : nat) (rest : list string)
    (h : heap) (d : DNSAggregator) : option (heap * DNSAggregator) :=
  match rest with
  | [] => Some (h, d)
  | answer :: rest' =>
      if MAX_SANE_VALUE_LEN <? len answer then
        Some (h, SkipRecord d)                       (* return *)
      else if String.eqb answer "-" then
        answersLoop r (S idx) rest' h d              (* continue *)
      else
        match ttls r !! idx with
        | None => None                               (* r.ttls[idx] panics *)
        | Some t =>
            let ttl0 := stripDecimal t in
            let uquery :=
              {| ut_query := query r; ut_answer := answer; ut_qtype := qtype r |} in
            let '(h1, qs) :=
              upsert h (queries d) uquery
                (firstSeen (ts r) ttl0) (seenAgainTTL (ts r) ttl0) in
            let answer_value := {| value := answer; which := "A" |} in
            let '(h2, vs) :=
              upsert h1 (values d) answer_value
                (firstSeen (ts r) ttl0) (seenAgainTTL (ts r) ttl0) in
            answersLoop r (S idx) rest' h2 (set_values vs (set_queries qs d))
        end
  end.

Definition AddRecord (h : heap) (d : DNSAggregator) (r : DNSRecord)
    : option (heap * DNSAggregator) :=
  if MAX_SANE_VALUE_LEN <? len (query r) then
    Some (h, SkipRecord d)
  else
    let d1 := incr_total d in
    let query_value := {| value := query r; which := "Q" |} in
    let '(h1, vs) :=
      upsert h (values d1) query_value
        (firstSeen (ts r) "") (seenAgain (ts r)) in
    answersLoop r 0 (answers r) h1 (set_values vs d1).

(** Feeding a list of records, one after the other. *)
Fixpoint AddRecords (h : heap) (d : DNSAggregator) (rs : list DNSRecord)
    : option (heap * DNSAggregator) :=
  match rs with
  | [] => Some (h, d)
  | r :: rs' =>
      match AddRecord h d r with
      | None => None
      | Some (h', d') => AddRecords h' d' rs'
      end
  end.

(** ** GetResult *)

Record aggregationResult := {
  TotalRecords : Z;
  SkippedRecords : Z;
  Tuples : list (uniqueTuple * queryStat);
  TuplesLen : Z;
  Individual : list (uniqueIndividual * queryStat);
  IndividualLen : Z
}.

(** [range] over a Go map visits the entries in an unspecified order;
    [map_to_list] is one such order. *)
Definition flatten {K} `{Countable K} (h : heap) (m : gmap K loc)
    : list (K * queryStat) :=
  (λ e, (e.1, load h e.2)) <$> map_to_list m.

Definition GetResult (h : heap) (d : DNSAggregator) : aggregationResult :=
  let tuples := flatten h (queries d) in
  let individual := flatten h (values d) in
  {| TotalRecords := totalRecords d;
     SkippedRecords := skippedRecords d;
     Tuples := tuples;
     TuplesLen := Z.of_nat (List.length tuples);
     Individual := individual;
     IndividualLen := Z.of_nat (List.length individual) |}.

(** ** Merge *)

Definition set_count (c : Z) (s : queryStat) : queryStat :=
  {| count := c; first := first s; last := last s; ttl := ttl s |}.
Definition set_first (f : Z) (s : queryStat) : queryStat :=
  {| count := count s; first := f; last := last s; ttl := ttl s |}.
Definition set_last (l : Z) (s : queryStat) : queryStat :=
  {| count := count s; first := first s; last := l; ttl := ttl s |}.
Definition set_ttl (t : string) (s : queryStat) : queryStat :=
  {| count := count s; first := first s; last := last s; ttl := t |}.

(** The [else] branch of the loop body, statement by statement: [rec] and
    [stat] are pointers and may be the same cell. *)
Definition mergeInto (h : heap) (rec stat : loc) : heap :=
  let h1 := store h rec
              (set_count (uint_add (count (load h rec)) (count (load h stat)))
                         (load h rec)) in
  let h2 := if first (load h1 stat) <? first (load h1 rec)
            then store h1 rec (set_first (first (load h1 stat)) (load h1 rec))
            else h1 in
  let h3 := if last (load h2 stat) >? last (load h2 rec)
            then store h2 rec (set_last (last (load h2 stat)) (load h2 rec))
            else h2 in
  store h3 rec (set_ttl (ttl (load h3 stat)) (load h3 rec)).

(** One iteration of [for q, stat := range other.m { ... }]. *)
Definition mergeStep {K} `{Countable K} (acc : heap * gmap K loc)
    (e : K * loc) : heap * gmap K loc :=
  match acc.2 !! e.1 with
  | None => (acc.1, <[e.1 := e.2]> acc.2)
  | Some rec => (mergeInto acc.1 rec e.2, acc.2)
  end.

(** The loop over the entries of [other]'s map, visited in the order [es]. *)
Definition mergeLoop {K} `{Countable K} (h : heap) (m : gmap K loc)
    (es : list (K * loc)) : heap * gmap K loc :=
  foldl mergeStep (h, m) es.

(** The two loops of [Merge], with the entries of [other.queries] visited in
    the order [oq] and those of [other.values] in the order [ov]. *)
Definition MergeIn (h : heap) (d : DNSAggregator)
    (oq : list (uniqueTuple * loc)) (ov : list (uniqueIndividual * loc))
    : heap * DNSAggregator :=
  let '(h1, qs) := mergeLoop h (queries d) oq in
  let '(h2, vs) := mergeLoop h1 (values d) ov in
  (h2, set_values vs (set_queries qs d)).

(** [range] over a Go map visits its entries in an unspecified order;
    [Merge] takes the order of [map_to_list], and [Merge_any_order] below
    shows that the order does not matter. *)
Definition Merge (h : heap) (d other : DNSAggregator) : heap * DNSAggregator :=
  MergeIn h d (map_to_list (queries other)) (map_to_list (values other)).

(** ** What an aggregator denotes

    The statistics an aggregator holds, with the pointers followed: the view
    of the program that [GetResult] exports. *)

Definition view {K} `{Countable K} (h : heap) (m : gmap K loc)
    : gmap K queryStat :=
  load h <$> m.

Record snapshot := {
  vqueries : gmap uniqueTuple queryStat;
  vvalues : gmap uniqueIndividual queryStat;
  vtotal : Z;
  vskipped : Z
}.

Definition abs (h : heap) (d : DNSAggregator) : snapshot :=
  {| vqueries := view h (queries d); vvalues := view h (values d);
     vtotal := totalRecords d; vskipped := skippedRecords d |}.

(** The cells an aggregator points to. *)
Definition cellsOf {K} `{Countable K} (m : gmap K loc) : list loc :=
  (map_to_list m).*2.

Definition cells (d : DNSAggregator) : list loc :=
  cellsOf (queries d) ++ cellsOf (values d).

(** Every pointer held by [d] is live and no cell is held twice. *)
Definition wf (h : heap) (d : DNSAggregator) : Prop :=
  NoDup (cells d) ∧ Forall (λ l, (l < List.length h)%nat) (cells d).

(** [d] and [o] share no cell. *)
Definition sep (d o : DNSAggregator) : Prop :=
  Forall (λ l, l ∉ cells o) (cells d).

(** What a step of the program guarantees about the heap around it: the heap
    only grows, cells outside the aggregator keep their content, and the
    aggregator only gains cells that are new. *)
Definition extends (h : heap) (d : DNSAggregator) (h' : heap)
    (d' : DNSAggregator) : Prop :=
  (List.length h ≤ List.length h')%nat
  ∧ (∀ c, (c < List.length h)%nat → c ∉ cells d → load h' c = load h c)
  ∧ (∀ c, c ∈ cells d' → c ∈ cells d ∨ (List.length h ≤ c)%nat).

(** *** The same operations on values *)

Definition touch {K} `{Countable K} (m : gmap K queryStat) (k : K)
    (fresh : queryStat) (upd : queryStat → queryStat) : gmap K queryStat :=
  match m !! k with
  | None => <[k := fresh]> m
  | Some s => <[k := upd s]> m
  end.

Definition skipV (a : snapshot) : snapshot :=
  {| vqueries := vqueries a; vvalues := vvalues a;
     vtotal := vtotal a; vskipped := uint_add (vskipped a) 1 |}.

Fixpoint answersLoopV (r : DNSRecord) (idx : nat) (rest : list string)
    (a : snapshot) : option snapshot :=
  match rest with
  | [] => Some a
  | answer :: rest' =>
      if MAX_SANE_VALUE_LEN <? len answer then Some (skipV a)
      else if String.eqb answer "-" then answersLoopV r (S idx) rest' a
      else
        match ttls r !! idx with
        | None => None
        | Some t =>
            let ttl0 := stripDecimal t in
            answersLoopV r (S idx) rest'
              {| vqueries :=
                   touch (vqueries a)
                     {| ut_query := query r; ut_answer := answer;
                        ut_qtype := qtype r |}
                     (firstSeen (ts r) ttl0) (seenAgainTTL (ts r) ttl0);
                 vvalues :=
                   touch (vvalues a) {| value := answer; which := "A" |}
                     (firstSeen (ts r) ttl0) (seenAgainTTL (ts r) ttl0);
                 vtotal := vtotal a; vskipped := vskipped a |}
        end
  end.

Definition AddRecordV (a : snapshot) (r : DNSRecord) : option snapshot :=
  if MAX_SANE_VALUE_LEN <? len (query r) then Some (skipV a)
  else
    answersLoopV r 0 (answers r)
      {| vqueries := vqueries a;
         vvalues :=
           touch (vvalues a) {| value := query r; which := "Q" |}
             (firstSeen (ts r) "") (seenAgain (ts r));
         vtotal := uint_add (vtotal a) 1; vskipped := vskipped a |}.

(** The combine rule of [Merge] as the specification words it. *)
Definition combine (rec stat : queryStat) : queryStat :=
  {| count := uint_add (count rec) (count stat);
     first := Z.min (first rec) (first stat);
     last := Z.max (last rec) (last stat);
     ttl := ttl stat |}.

Definition mergeV {K} `{Countable K} (m o : gmap K queryStat)
    : gmap K queryStat :=
  union_with (λ a b, Some (combine a b)) m o.

(** count, first and last of a statistic: what the merge monoid is about. *)
Definition cfl (s : queryStat) : Z * Z * Z := (count s, first s, last s).

(** [Merge] on values: the two maps are combined key by key; the record
    counters of the receiver are left as they are. *)
Definition MergeV (a b : snapshot) : snapshot :=
  {| vqueries := mergeV (vqueries a) (vqueries b);
     vvalues := mergeV (vvalues a) (vvalues b);
     vtotal := vtotal a; vskipped := vskipped a |}.

(** The key-wise rule of [Merge] as the specification words it: a key absent
    in self is adopted from other, a key present in both is combined. *)
Definition keywise (self other : option queryStat) : option queryStat :=
  match self, other with
  | Some rec, Some stat => Some (combine rec stat)
  | Some rec, None => Some rec
  | None, _ => other
  end.

(** The statistic a program state (heap and aggregator) holds for a key. *)
Definition tupleStat (s : heap * DNSAggregator) (q : uniqueTuple)
    : option queryStat :=
  view s.1 (queries s.2) !! q.
Definition valueStat (s : heap * DNSAggregator) (v : uniqueIndividual)
    : option queryStat :=
  view s.1 (values s.2) !! v.

(** [A.Merge(B); A.Merge(C)], i.e. Merge(Merge(A,B),C). *)
Definition mergeLeft (h : heap) (A B C : DNSAggregator)
    : heap * DNSAggregator :=
  let '(h1, A1) := Merge h A B in Merge h1 A1 C.

(** [B.Merge(C); A.Merge(B)], i.e. Merge(A,Merge(B,C)). *)
Definition mergeRight (h : heap) (A B C : DNSAggregator)
    : heap * DNSAggregator :=
  let '(g1, B1) := Merge h B C in Merge g1 A B1.

(** *** The TTL updates a run applies

    The answer slots of [r] on which the loop of [AddRecord] reaches the
    statistics, from slot [idx] on, each with its raw TTL string: the loop
    stops at the first oversized answer and passes over the sentinel. *)
Fixpoint appliedSlots (r : DNSRecord) (idx : nat) (rest : list string)
    : list (string * string) :=
  match rest with
  | [] => []
  | answer :: rest' =>
      if MAX_SANE_VALUE_LEN <? len answer then []
      else if String.eqb answer "-" then appliedSlots r (S idx) rest'
      else
        match ttls r !! idx with
        | None => []
        | Some t => (answer, t) :: appliedSlots r (S idx) rest'
        end
  end.

Definition recordSlots (r : DNSRecord) : list (string * string) :=
  if MAX_SANE_VALUE_LEN <? len (query r) then []
  else appliedSlots r 0 (answers r).

(** The updates of tuple keys, and of Answer keys, a list of records makes,
    oldest first. *)
Definition tupleUpdates (rs : list DNSRecord) : list (uniqueTuple * string) :=
  rs ≫= (λ r,
    (λ u, ({| ut_query := query r; ut_answer := u.1; ut_qtype := qtype r |}, u.2))
      <$> recordSlots r).

Definition answerUpdates (rs : list DNSRecord)
    : list (uniqueIndividual * string) :=
  rs ≫= (λ r, (λ u, ({| value := u.1; which := "A" |}, u.2)) <$> recordSlots r).

(** The raw TTL of the last update of key [k], if there is one. *)
Fixpoint lastUpdate {K} `{EqDecision K} (k : K) (us : list (K * string))
    : option string :=
  match us with
  | [] => None
  | u :: us' =>
      match lastUpdate k us' with
      | Some t => Some t
      | None => if decide (u.1 = k) then Some u.2 else None
      end
  end.

(** The invariant the specification states for a statistic. *)
Definition ordered (s : queryStat) : Prop := first s ≤ last s.

(** An ordered statistic first seen no later than [t]. *)
Definition seenBy (t : Z) (s : queryStat) : Prop := ordered s ∧ first s ≤ t.

(** ** Sample inputs *)

Definition R1 : DNSRecord :=
  {| ts := 100; query := "www.example.com"; qtype := "A";
     answers := ["1.1.1.1"]; ttls := ["300"] |}.
Definition R2 : DNSRecord :=
  {| ts := 200; query := "www.example.com"; qtype := "A";
     answers := ["1.1.1.1"]; ttls := ["60"] |}.
Definition R3 : DNSRecord :=
  {| ts := 150; query := "www.example.com"; qtype := "A";
     answers := ["-"]; ttls := ["0"] |}.
Definition R4 : DNSRecord :=
  {| ts := 50; query := "www.example.com"; qtype := "A";
     answers := ["1.1.1.1"; "2.2.2.2"]; ttls := ["10.5"; "-"] |}.
Definition R5 : DNSRecord :=
  {| ts := 400; query := "mail.example.com"; qtype := "MX";
     answers := ["2.2.2.2"; "-"; "1.1.1.1"]; ttls := ["7"; "0"; "8.25"] |}.

(** The same key seen at ts=10 and then at ts=5. *)
Definition K10 : DNSRecord :=
  {| ts := 10; query := "example.org"; qtype := "A";
     answers := ["192.0.2.1"]; ttls := ["60"] |}.
Definition K5 : DNSRecord :=
  {| ts := 5; query := "example.org"; qtype := "A";
     answers := ["192.0.2.1"]; ttls := ["60"] |}.

(** The same key with TTL "300.0" and then "60". *)
Definition T300 : DNSRecord :=
  {| ts := 1; query := "example.org"; qtype := "A";
     answers := ["192.0.2.1"]; ttls := ["300.0"] |}.
Definition T60 : DNSRecord :=
  {| ts := 2; query := "example.org"; qtype := "A";
     answers := ["192.0.2.1"]; ttls := ["60"] |}.

(** A record whose second answer is 1001 bytes long. *)
Definition oversized : string :=
  String.string_of_list_ascii (replicate 1001 "a"%char).
Definition Rlong : DNSRecord :=
  {| ts := 1; query := "example.org"; qtype := "A";
     answers := ["192.0.2.1"; oversized]; ttls := ["60"; "60"] |}.

Definition keyT : uniqueTuple :=
  {| ut_query := "example.org"; ut_answer := "192.0.2.1"; ut_qtype := "A" |}.
Definition keyQ : uniqueIndividual := {| value := "example.org"; which := "Q" |}.
Definition keyA : uniqueIndividual := {| value := "192.0.2.1"; which := "A" |}.

(** A fresh aggregator fed with [rs], allocated in the heap [h]. *)
Definition build (h : heap) (rs : list DNSRecord) : heap * DNSAggregator :=
  default (h, NewDNSAggregator) (AddRecords h NewDNSAggregator rs).

(** Three aggregators built one after the other, as for three input files. *)
Definition aggA : DNSAggregator := (build [] [R1; R2]).2.

(** * store_pg.go

    The PostgreSQL store.  The database is modelled by the content of its two
    tables; one writer is modelled, so the stored procedures run against a
    table nobody else changes.  Timestamps are stored as the numbers handed to
    [to_timestamp].  The flat argument slice of a batch is modelled as one
    record per row, its fields in the positional order of the template. *)

(** Code and services the file relies on and does not contain: [Reverse] and
    [ToTS] are functions of the repository defined elsewhere, [int4_in] is
    PostgreSQL's reading of a text parameter as an [integer]. *)
Class Externals := {
  Reverse : string → string;
  ToTS : Z → Z;
  int4_in : string → option Z
}.

(** PostgreSQL's [integer] and [bigint] raise an error out of range. *)
Definition int4_ok (n : Z) : bool := (- 2 ^ 31 <=? n) && (n <? 2 ^ 31).
Definition int8_ok (n : Z) : bool := (- 2 ^ 63 <=? n) && (n <? 2 ^ 63).

(** A row of [tuples], without its key (query, type, answer). *)
Record tupleRow := {
  t_count : Z;
  t_ttl : Z;
  t_first : Z;
  t_last : Z
}.

(** A row of [individual], without its key (which, value). *)
Record individualRow := {
  i_count : Z;
  i_first : Z;
  i_last : Z
}.

Record database := {
  tuples : gmap (string * string * string) tupleRow;
  individual : gmap (string * string) individualRow
}.

(** The result of running a statement or a procedure: done, an SQL error, or
    still looping when the fuel ran out. *)
Inductive run (A : Type) : Type :=
  | Done (a : A)
  | Raise
  | Spin.
Arguments Done {A} a.
Arguments Raise {A}.
Arguments Spin {A}.

Global Instance run_bind : MBind run := λ A B f m,
  match m with
  | Done a => f a
  | Raise => Raise
  | Spin => Spin
  end.

(** [update_tuples(q, ty, a, tt, c, f, l)] of [pgschema]; [fuel] bounds the
    iterations of its [LOOP]. *)
Fixpoint update_tuples (fuel : nat) (T : gmap (string * string * string) tupleRow)
    (q ty a : string) (tt c f l : Z)
    : run (ascii * gmap (string * string * string) tupleRow) :=
  match fuel with
  | O => Spin
  | S fuel' =>
      (* UPDATE tuples SET ... WHERE query=q AND type=ty AND answer=a *)
      match T !! (q, ty, a) with
      | Some row =>
          if int8_ok (t_count row + c) then
            Done ("U"%char,
                  <[(q, ty, a) :=
                      {| t_count := t_count row + c;
                         t_ttl := tt;
                         t_first := Z.min f (t_first row);
                         t_last := Z.max l (t_last row) |}]> T)
          else Raise
      | None =>
          (* INSERT INTO tuples ...; the primary key decides *)
          match T !! (q, ty, a) with
          | None =>
              Done ("I"%char,
                    <[(q, ty, a) :=
                        {| t_count := c; t_ttl := tt;
                           t_first := f; t_last := l |}]> T)
          | Some _ =>
              (* unique_violation: loop to try the UPDATE again *)
              update_tuples fuel' T q ty a tt c f l
          end
      end
  end.

(** [update_individual(w, v, c, f, l)] of [pgschema]. *)
Fixpoint update_individual (fuel : nat) (T : gmap (string * string) individualRow)
    (w v : string) (c f l : Z)
    : run (ascii * gmap (string * string) individualRow) :=
  match fuel with
  | O => Spin
  | S fuel' =>
      match T !! (w, v) with
      | Some row =>
          if int8_ok (i_count row + c) then
            Done ("U"%char,
                  <[(w, v) :=
                      {| i_count := i_count row + c;
                         i_first := Z.min f (i_first row);
                         i_last := Z.max l (i_last row) |}]> T)
          else Raise
      | None =>
          match T !! (w, v) with
          | None =>
              Done ("I"%char,
                    <[(w, v) := {| i_count := c; i_first := f; i_last := l |}]> T)
          | Some _ => update_individual fuel' T w v c f l
          end
      end
  end.

(** The seven arguments [Update] appends for a tuple, and the five for an
    individual. *)
Record tupleArgs := {
  ta_query : string;
  ta_type : string;
  ta_answer : string;
  ta_ttl : string;
  ta_count : Z;
  ta_first : Z;
  ta_last : Z
}.

Record individualArgs := {
  ia_which : string;
  ia_value : string;
  ia_count : Z;
  ia_first : Z;
  ia_last : Z
}.

(** The type is declared outside the two files; its counters are modelled
    without a bound, its duration is left out. *)
Record UpdateResult := {
  Inserted : Z;
  Updated : Z
}.

(** The open transaction: the tables as the transaction sees them, and the
    [result] variable the closure [runBatch] updates. *)
Record txstate := {
  work : database;
  result : UpdateResult
}.

Definition BATCHSIZE : nat := 200.

Section store.
Context `{Externals}.

(** [SELECT update_tuples($1,..,$7) || update_tuples($8,..,$14) || ...] as
    [genFullBatchSelect] composes it: one call per row, left to right, the
    codes concatenated.  The text parameters [tt] and [c] are read as
    [integer]. *)
Fixpoint execTupleCalls (fuel : nat) (rows : list tupleArgs)
    (T : gmap (string * string * string) tupleRow)
    : run (string * gmap (string * string * string) tupleRow) :=
  match rows with
  | [] => Done ("", T)
  | a :: rows' =>
      match int4_in (ta_ttl a) with
      | None => Raise
      | Some ttv =>
          if int4_ok (ta_count a) then
            '(ch, T1) ← update_tuples fuel T (ta_query a) (ta_type a)
                          (ta_answer a) ttv (ta_count a)
                          (ta_first a) (ta_last a);
            '(codes, T2) ← execTupleCalls fuel rows' T1;
            Done (String ch codes, T2)
          else Raise
      end
  end.

Fixpoint execIndividualCalls (fuel : nat) (rows : list individualArgs)
    (T : gmap (string * string) individualRow)
    : run (string * gmap (string * string) individualRow) :=
  match rows with
  | [] => Done ("", T)
  | a :: rows' =>
      if int4_ok (ia_count a) then
        '(ch, T1) ← update_individual fuel T (ia_which a) (ia_value a)
                      (ia_count a) (ia_first a) (ia_last a);
        '(codes, T2) ← execIndividualCalls fuel rows' T1;
        Done (String ch codes, T2)
      else Raise
  end.

(** [for _, ch := range update_result { if ch == 'I' { result.Inserted++ }
    else { result.Updated++ } }] *)
Fixpoint tally (codes : string) (r : UpdateResult) : UpdateResult :=
  match codes with
  | EmptyString => r
  | String ch codes' =>
      tally codes'
        (if Ascii.eqb ch "I"
         then {| Inserted := Inserted r + 1; Updated := Updated r |}
         else {| Inserted := Inserted r; Updated := Updated r + 1 |})
  end.

(** The closure [runBatch], for the tuple template.  [Raise] is
    [log.Fatal(err)].  The statement has [batchSize] calls and takes as many
    rows of arguments. *)
Definition runBatchTuples (fuel : nat) (arguments : list tupleArgs)
    (batchSize : nat) (st : txstate) : run txstate :=
  if (batchSize =? 0)%nat then Done st
  else if negb (List.length arguments =? batchSize)%nat then Raise
  else
    '(codes, T) ← execTupleCalls fuel arguments (tuples (work st));
    Done {| work := {| tuples := T; individual := individual (work st) |};
            result := tally codes (result st) |}.

(** The closure [runBatch], for the individual template. *)
Definition runBatchIndividual (fuel : nat) (arguments : list individualArgs)
    (batchSize : nat) (st : txstate) : run txstate :=
  if (batchSize =? 0)%nat then Done st
  else if negb (List.length arguments =? batchSize)%nat then Raise
  else
    '(codes, T) ← execIndividualCalls fuel arguments (individual (work st));
    Done {| work := {| tuples := tuples (work st); individual := T |};
            result := tally codes (result st) |}.

(** [append(arguments, query, q.qtype, q.answer, q.ttl, q.count,
    ToTS(q.first), ToTS(q.last))] with [query := Reverse(q.query)]. *)
Definition tupleArgsOf (q : uniqueTuple * queryStat) : tupleArgs :=
  let query0 := Reverse (ut_query q.1) in
  {| ta_query := query0; ta_type := ut_qtype q.1; ta_answer := ut_answer q.1;
     ta_ttl := ttl q.2; ta_count := count q.2;
     ta_first := ToTS (first q.2); ta_last := ToTS (last q.2) |}.

(** [append(arguments, q.which, value, q.count, ToTS(q.first),
    ToTS(q.last))] with [value] reversed when [q.which == "Q"]. *)
Definition individualArgsOf (q : uniqueIndividual * queryStat)
    : individualArgs :=
  let value0 :=
    if String.eqb (which q.1) "Q" then Reverse (value q.1) else value q.1 in
  {| ia_which := which q.1; ia_value := value0; ia_count := count q.2;
     ia_first := ToTS (first q.2); ia_last := ToTS (last q.2) |}.

(** [for _, q := range ar.Tuples { ... }] *)
Fixpoint tupleLoop (fuel : nat) (qs : list (uniqueTuple * queryStat))
    (arguments : list tupleArgs) (batchCounter : nat) (st : txstate)
    : run (list tupleArgs * nat * txstate) :=
  match qs with
  | [] => Done (arguments, batchCounter, st)
  | q :: qs' =>
      let arguments := arguments ++ [tupleArgsOf q] in
      let batchCounter := S batchCounter in
      if (batchCounter =? BATCHSIZE)%nat then
        st1 ← runBatchTuples fuel arguments batchCounter st;
        tupleLoop fuel qs' [] 0 st1
      else tupleLoop fuel qs' arguments batchCounter st
  end.

(** [for _, q := range ar.Individual { ... }] *)
Fixpoint individualLoop (fuel : nat) (qs : list (uniqueIndividual * queryStat))
    (arguments : list individualArgs) (batchCounter : nat) (st : txstate)
    : run (list individualArgs * nat * txstate) :=
  match qs with
  | [] => Done (arguments, batchCounter, st)
  | q :: qs' =>
      let arguments := arguments ++ [individualArgsOf q] in
      let batchCounter := S batchCounter in
      if (batchCounter =? BATCHSIZE)%nat then
        st1 ← runBatchIndividual fuel arguments batchCounter st;
        individualLoop fuel qs' [] 0 st1
      else individualLoop fuel qs' arguments batchCounter st
  end.

(** How a call of [Update] ends, with the tables as committed then. *)
Inductive outcome : Type :=
  | Returned (res : UpdateResult) (err : option string) (db : database)
  | Exited (db : database)      (* [log.Fatal]: [os.Exit(1)] *)
  | Hangs.                      (* a stored procedure still loops *)

(** Modelled from the spec: [BeginTx] of [SQLCommonStore], which is not
    among the files: "open one transaction for the whole call".  It is taken
    to succeed, as is the preparation of the statements. *)
Definition BeginTx (db : database) : txstate :=
  {| work := db; result := {| Inserted := 0; Updated := 0 |} |}.

(** Modelled from the spec: [Commit] of [SQLCommonStore], which is not among
    the files: the transaction becomes durable as a whole.  It is taken to
    succeed; a process that exits before it leaves what was committed
    before. *)
Definition Commit (st : txstate) : option string * database :=
  (None, work st).

Definition Update (fuel : nat) (db : database) (ar : aggregationResult)
    : outcome :=
  let tx := BeginTx db in
  let run_batches :=
    '(arguments, batchCounter, st) ← tupleLoop fuel (Tuples ar) [] 0 tx;
    st ← runBatchTuples fuel arguments batchCounter st;
    '(arguments, batchCounter, st) ←
       individualLoop fuel (Individual ar) [] 0 st;
    runBatchIndividual fuel arguments batchCounter st in
  match run_batches with
  | Done st => let '(err, db') := Commit st in Returned (result st) err db'
  | Raise => Exited db
  | Spin => Hangs
  end.
End store.

(** ** [Close]

    [func (s *PGStore) Close() error { return s.Close() }]: a machine state
    holds the store, the number of frames of [Close] on the stack and what the
    outermost call has returned, if it has. *)
Record PGStore := {
  conn_released : bool
}.

Record closing := {
  cl_store : PGStore;
  cl_frames : nat;
  cl_returned : option (option string)
}.

(** The call [s.Close()] *)
Definition Close_call (s : PGStore) : closing :=
  {| cl_store := s; cl_frames := 1; cl_returned := None |}.

(** One step of the body [return s.Close()]: the operand of [return] is
    evaluated first, and it is a call of the same method. *)
Definition Close_step (m : closing) : closing :=
  match cl_returned m with
  | Some _ => m
  | None =>
      {| cl_store := cl_store m; cl_frames := S (cl_frames m);
         cl_returned := None |}
  end.

(** *** Sample store inputs *)

(** Modelled from the spec: [Reverse], "reversal of the query's character
    sequence" (§4.2); the function is not among the files. *)
Fixpoint reverseString (s : string) : string :=
  match s with
  | EmptyString => EmptyString
  | String c s' => reverseString s' +:+ String c EmptyString
  end.

(** A reader of unsigned decimal numerals, standing for [int4_in]. *)
Fixpoint readDigits (acc : Z) (s : string) : option Z :=
  match s with
  | EmptyString => Some acc
  | String c s' =>
      let n := Z.of_nat (nat_of_ascii c) - 48 in
      if (0 <=? n) && (n <=? 9) then readDigits (10 * acc + n) s' else None
  end.
Definition readInt4 (s : string) : option Z :=
  match s with
  | EmptyString => None
  | _ => match readDigits 0 s with
         | Some n => if int4_ok n then Some n else None
         | None => None
         end
  end.

Definition sampleExternals : Externals :=
  {| Reverse := reverseString; ToTS := λ t, t; int4_in := readInt4 |}.

Definition emptyDB : database := {| tuples := ∅; individual := ∅ |}.

Definition snapshotOf (tuples0 : list (uniqueTuple * queryStat))
    (individual0 : list (uniqueIndividual * queryStat)) : aggregationResult :=
  {| TotalRecords := 0; SkippedRecords := 0;
     Tuples := tuples0; TuplesLen := Z.of_nat (List.length tuples0);
     Individual := individual0;
     IndividualLen := Z.of_nat (List.length individual0) |}.

(** *** What the batches amount to

    All the rows of one kind, run one after the other in the transaction. *)
Definition execAllTuples `{Externals} (fuel : nat) (rows : list tupleArgs)
    (st : txstate) : run txstate :=
  '(codes, T) ← execTupleCalls fuel rows (tuples (work st));
  Done {| work := {| tuples := T; individual := individual (work st) |};
          result := tally codes (result st) |}.

Definition execAllIndividual `{Externals} (fuel : nat)
    (rows : list individualArgs) (st : txstate) : run txstate :=
  '(codes, T) ← execIndividualCalls fuel rows (individual (work st));
  Done {| work := {| tuples := tuples (work st); individual := T |};
          result := tally codes (result st) |}.

(** The primary key a row of arguments addresses. *)
Definition tupleKey (a : tupleArgs) : string * string * string :=
  (ta_query a, ta_type a, ta_answer a).
Definition individualKey (a : individualArgs) : string * string :=
  (ia_which a, ia_value a).


(** The database and the result a call of [Update] leaves. *)
Definition committed (o : outcome) : database :=
  match o with
  | Returned _ _ db => db
  | Exited db => db
  | Hangs => {| tuples := ∅; individual := ∅ |}
  end.
Definition returned (o : outcome) : UpdateResult :=
  match o with
  | Returned res _ _ => res
  | _ => {| Inserted := 0; Updated := 0 |}
  end.


(** The snapshot of the end-to-end scenario. *)
Definition snapshotR123 : aggregationResult :=
  GetResult (build [] [R1; R2; R3]).1 (build [] [R1; R2; R3]).2.

(** A stored row for [keyT], under its reversed query. *)
Definition storedDB : database :=
  {| tuples :=
       {[ ("gro.elpmaxe", "A", "192.0.2.1") :=
            {| t_count := 10; t_ttl := 300; t_first := 50; t_last := 60 |} ]};
     individual := ∅ |}.
Definition delta3 : queryStat :=
  {| count := 3; first := 40; last := 55; ttl := "120" |}.
Definition delta4 : queryStat :=
  {| count := 4; first := 45; last := 70; ttl := "60" |}.

(** * Further definitions *)

(** The record [r] with other answer slots. *)
Definition withSlots (r : DNSRecord) (answers0 ttls0 : list string)
    : DNSRecord :=
  {| ts := ts r; query := query r; qtype := qtype r;
     answers := answers0; ttls := ttls0 |}.

(** *** The updates a run applies, with their timestamps

    Every update the loop of [AddRecord] makes to a tuple statistic, oldest
    first: the key, the timestamp of the record and the raw TTL of the slot. *)
Definition tupleEvents (rs : list DNSRecord)
    : list (uniqueTuple * (Z * string)) :=
  rs ≫= (λ r,
    (λ u, ({| ut_query := query r; ut_answer := u.1; ut_qtype := qtype r |},
           (ts r, u.2)))
      <$> recordSlots r).

(** The updates of key [k] among [evs], oldest first. *)
Definition hitsOf {K} `{EqDecision K} (k : K) (evs : list (K * (Z * string)))
    : list (Z * string) :=
  (filter (λ e, e.1 = k) evs).*2.

(** The timestamps of the records that reach the statistic of the query
    [x], oldest first: those with that query, of sane length. *)
Definition queryHits (x : string) (rs : list DNSRecord) : list Z :=
  ts <$> filter (λ r, query r = x ∧ len (query r) ≤ MAX_SANE_VALUE_LEN) rs.

(** Timestamps that never go back: [t0] and then those of [rs]. *)
Fixpoint nondecreasing (t0 : Z) (rs : list DNSRecord) : Prop :=
  match rs with
  | [] => True
  | r :: rs' => t0 ≤ ts r ∧ nondecreasing (ts r) rs'
  end.

(** What the updates [hits] make of a statistic, one after the other: the
    first one of an absent key creates it, a later one is
    [count++; last = r.ts; ttl = ttl]. *)
Definition replay (s : option queryStat) (hits : list (Z * string))
    : option queryStat :=
  foldl (λ s e, Some (from_option (seenAgainTTL e.1 (stripDecimal e.2))
                        (firstSeen e.1 (stripDecimal e.2)) s)) s hits.

(** The same for the statistic of a query, which carries no TTL. *)
Definition replayQuery (s : option queryStat) (hits : list Z)
    : option queryStat :=
  foldl (λ s t, Some (from_option (seenAgain t) (firstSeen t "") s)) s hits.

(** The updates of Answer keys, with their timestamps. *)
Definition answerEvents (rs : list DNSRecord)
    : list (uniqueIndividual * (Z * string)) :=
  rs ≫= (λ r,
    (λ u, ({| value := u.1; which := "A" |}, (ts r, u.2))) <$> recordSlots r).

(** Two aggregators with keys in common, the second built after the first. *)
Definition aggD : DNSAggregator := (build (build [] [R1; R2]).1 [R4; R3]).2.
Definition heapAD : heap := (build (build [] [R1; R2]).1 [R4; R3]).1.

(** A fresh aggregator that merges in one fed with [T300], and is then fed
    [T60]. *)
Definition aggT : DNSAggregator := (build [] [T300]).2.
Definition mergedT : heap * DNSAggregator :=
  Merge (build [] [T300]).1 NewDNSAggregator aggT.
Definition mergedThenFed : heap * DNSAggregator :=
  default mergedT (AddRecords mergedT.1 mergedT.2 [T60]).

(** ** aggregate

    The log reader ([backend.OpenDecompress], [NewBroReader], [br.Next] and
    the getters of a record) is not among the files; a run of [aggregate] is
    modelled over what the reader hands out: whether the file opens, and then
    the results of the successive calls of [br.Next] up to the first [nil]
    record. *)

(** [rec.Error()], as [aggregate] tells the errors apart. *)
Inductive recError :=
  | MissingFieldError
  | OtherRecError (e : string).

(** One result of [br.Next()]: an error, or a record with what its five
    getters return and what [rec.Error()] is afterwards. *)
Inductive nextResult :=
  | NextFails (e : string)
  | NextRecord (fields : DNSRecord) (err : option recError).

Inductive source :=
  | OpenFails (e : string)
  | ReaderFails (e : string)
  | Opened (items : list nextResult).

(** The [for] loop of [aggregate]: the returned error, if any, and the
    aggregator as the loop leaves it; [None] is a panic of [AddRecord]. *)
Fixpoint aggregateLoop (h : heap) (d : DNSAggregator) (items : list nextResult)
    : option (option string * (heap * DNSAggregator)) :=
  match items with
  | [] => Some (None, (h, d))                      (* rec == nil: break *)
  | NextFails e :: _ => Some (Some e, (h, d))      (* return err *)
  | NextRecord r (Some MissingFieldError) :: rest =>
      aggregateLoop h (SkipRecord d) rest          (* continue *)
  | NextRecord r (Some (OtherRecError e)) :: _ =>
      Some (Some e, (h, d))                        (* return rec.Error() *)
  | NextRecord r None :: rest =>
      match AddRecord h d r with
      | None => None
      | Some (h', d') => aggregateLoop h' d' rest
      end
  end.

Definition aggregate (h : heap) (d : DNSAggregator) (src : source)
    : option (option string * (heap * DNSAggregator)) :=
  match src with
  | OpenFails e => Some (Some e, (h, d))
  | ReaderFails e => Some (Some e, (h, d))
  | Opened items => aggregateLoop h d items
  end.

(** The error an item makes [aggregate] return, if it does. *)
Definition fatal (item : nextResult) : option string :=
  match item with
  | NextFails e => Some e
  | NextRecord _ (Some (OtherRecError e)) => Some e
  | NextRecord _ _ => None
  end.

(** The complete records among the items, and the number of those with a
    missing field. *)
Definition completeRecords (items : list nextResult) : list DNSRecord :=
  omap (λ item, match item with
                | NextRecord r None => Some r
                | _ => None
                end) items.
Definition missingField (item : nextResult) : bool :=
  match item with
  | NextRecord _ (Some MissingFieldError) => true
  | _ => false
  end.
Definition missingFields (items : list nextResult) : nat :=
  List.length (List.filter missingField items).

Definition sampleItems : list nextResult :=
  [NextRecord R1 None; NextRecord R3 (Some MissingFieldError);
   NextRecord R2 None].

(** ** What a call of [Update] is made of *)


(** The row a call of [update_tuples] that succeeds leaves under its key. *)
Definition tupleUpsert (old : option tupleRow) (tt c f l : Z) : tupleRow :=
  match old with
  | Some row =>
      {| t_count := t_count row + c; t_ttl := tt;
         t_first := Z.min f (t_first row); t_last := Z.max l (t_last row) |}
  | None => {| t_count := c; t_ttl := tt; t_first := f; t_last := l |}
  end.
Definition individualUpsert (old : option individualRow) (c f l : Z)
    : individualRow :=
  match old with
  | Some row =>
      {| i_count := i_count row + c;
         i_first := Z.min f (i_first row); i_last := Z.max l (i_last row) |}
  | None => {| i_count := c; i_first := f; i_last := l |}
  end.

(** The number of codes 'I' in what a batch returns. *)
Fixpoint insertedCodes (codes : string) : Z :=
  match codes with
  | EmptyString => 0
  | String ch codes' =>
      (if Ascii.eqb ch "I" then 1 else 0) + insertedCodes codes'
  end.

(** A snapshot with two rows for [keyT], and the key they are stored under. *)
Definition snapshotDeltas : aggregationResult :=
  snapshotOf [(keyT, delta3); (keyT, delta4)] [].
Definition storedKeyT : string * string * string :=
  ("gro.elpmaxe", "A", "192.0.2.1").

(** The two sample calls of [Update] on [storedDB]. *)
Definition updateR123 : outcome := @Update sampleExternals 1 storedDB snapshotR123.
Definition updateDeltas : outcome :=
  @Update sampleExternals 1 storedDB snapshotDeltas.

(** ** genFullBatchSelect

    [fmt.Sprintf] and [strings.Join] belong to Go's library; they are
    parameters.  Go's [int] has 64 bits. *)

Definition int_wrap (n : Z) : Z := (n + 2 ^ 63) `mod` 2 ^ 64 - 2 ^ 63.

(** An argument of [fmt.Sprintf]. *)
Inductive fmtArg :=
  | IntArg (n : Z)
  | StrArg (s : string).

Class GoStrings := {
  Sprintf : string → list fmtArg → string;
  Join : list string → string → string
}.

(** [strings.Count(tmpl, "$")]: the occurrences of the one-byte string. *)
Fixpoint countDollars (s : string) : nat :=
  match s with
  | EmptyString => 0%nat
  | String c s' => ((if Ascii.eqb c "$" then 1 else 0) + countDollars s')%nat
  end.

(** [for p := 0; p < numParams; p++ { args = append(args, arg); arg++ }],
    with [n] rounds to go. *)
Fixpoint paramLoop (n : nat) (args : list fmtArg) (arg : Z)
    : list fmtArg * Z :=
  match n with
  | O => (args, arg)
  | S n' => paramLoop n' (args ++ [IntArg arg]) (int_wrap (arg + 1))
  end.

(** [for i := 0; i < batchSize; i++ { ... }], with [n] rounds to go. *)
Fixpoint batchLoop `{GoStrings} (tmpl : string) (numParams : nat) (n : nat)
    (queries : list string) (arg : Z) : list string :=
  match n with
  | O => queries
  | S n' =>
      let '(args, arg') := paramLoop numParams [] arg in
      batchLoop tmpl numParams n' (queries ++ [Sprintf tmpl args]) arg'
  end.

Definition genFullBatchSelect `{GoStrings} (tmpl : string) (batchSize : Z)
    : string :=
  let numParams := countDollars tmpl in
  let queries := batchLoop tmpl numParams (Z.to_nat batchSize) [] 1 in
  Sprintf "SELECT %s" [StrArg (Join queries " || ")].

(** The two templates of [Update]. *)
Definition updateTupleTmpl : string :=
  "update_tuples($%d, $%d, $%d, $%d, $%d, to_timestamp($%d)::timestamp, to_timestamp($%d)::timestamp)".
Definition updateIndividualTmpl : string :=
  "update_individual($%d, $%d, $%d, to_timestamp($%d)::timestamp, to_timestamp($%d)::timestamp)".

(** A stand-in for the two library functions: [Sprintf] for the verbs [%d]
    and [%s] with arguments of the matching kind. *)
Fixpoint sampleSprintf (tmpl : string) (args : list fmtArg) : string :=
  match tmpl with
  | EmptyString => EmptyString
  | String "%" (String "d" rest) =>
      match args with
      | IntArg n :: args' => pretty n +:+ sampleSprintf rest args'
      | _ => sampleSprintf rest (tail args)
      end
  | String "%" (String "s" rest) =>
      match args with
      | StrArg s :: args' => s +:+ sampleSprintf rest args'
      | _ => sampleSprintf rest (tail args)
      end
  | String c rest => String c (sampleSprintf rest args)
  end.

Fixpoint sampleJoin (elems : list string) (sep : string) : string :=
  match elems with
  | [] => ""
  | [e] => e
  | e :: rest => e +:+ sep +:+ sampleJoin rest sep
  end.

Definition sampleStrings : GoStrings :=
  {| Sprintf := sampleSprintf; Join := sampleJoin |}.



(** * Proofs *)

(** ** The heap *)

Section heap_facts.
Implicit Types (h : heap) (l c : loc) (s : queryStat).

Lemma load_store_eq h l s : (l < List.length h)%nat → load (store h l s) l = s.
Proof. intros Hl. unfold load, store. by rewrite list_lookup_insert_eq. Qed.

Lemma load_store_ne h l c s : l ≠ c → load (store h l s) c = load h c.
Proof. intros Hne. unfold load, store. by rewrite list_lookup_insert_ne. Qed.

Lemma length_store h l s : List.length (store h l s) = List.length h.
Proof. apply length_insert. Qed.

Lemma store_store h l s s' : store (store h l s) l s' = store h l s'.
Proof. apply list_insert_insert_eq. Qed.

Lemma load_alloc_old h s c : (c < List.length h)%nat → load (h ++ [s]) c = load h c.
Proof. intros Hc. unfold load. by rewrite lookup_app_l. Qed.

Lemma load_alloc_new h s : load (h ++ [s]) (List.length h) = s.
Proof. unfold load. by rewrite list_lookup_middle. Qed.
End heap_facts.

(** ** Pointer maps and their views *)

Section view_facts.
Context {K : Type} `{Countable K}.
Implicit Types (h : heap) (m : gmap K loc) (k : K) (c : loc).

Lemma elem_of_cellsOf m c : c ∈ cellsOf m ↔ ∃ k, m !! k = Some c.
Proof.
  unfold cellsOf. rewrite list_elem_of_fmap. split.
  - intros [[k c'] [-> Hin]]. exists k. by apply elem_of_map_to_list.
  - intros [k Hk]. exists (k, c). split; [done|]. by apply elem_of_map_to_list.
Qed.

Lemma cellsOf_inj m k1 k2 c :
  NoDup (cellsOf m) → m !! k1 = Some c → m !! k2 = Some c → k1 = k2.
Proof.
  intros Hnd H1 H2.
  apply elem_of_map_to_list, list_elem_of_lookup in H1 as [i Hi].
  apply elem_of_map_to_list, list_elem_of_lookup in H2 as [j Hj].
  assert (cellsOf m !! i = Some c) as Hci
    by (unfold cellsOf; by rewrite list_lookup_fmap, Hi).
  assert (cellsOf m !! j = Some c) as Hcj
    by (unfold cellsOf; by rewrite list_lookup_fmap, Hj).
  pose proof (NoDup_lookup _ _ _ _ Hnd Hci Hcj) as ->.
  congruence.
Qed.

Lemma cellsOf_insert m k c :
  m !! k = None → cellsOf (<[k := c]> m) ≡ₚ c :: cellsOf m.
Proof.
  intros Hk. unfold cellsOf.
  by rewrite (map_to_list_insert m k c Hk).
Qed.

Lemma view_lookup h m k : view h m !! k = load h <$> m !! k.
Proof. unfold view. apply lookup_fmap. Qed.

Lemma view_insert h m k c : view h (<[k := c]> m) = <[k := load h c]> (view h m).
Proof. unfold view. apply fmap_insert. Qed.

Lemma view_ext h h' m :
  (∀ c, c ∈ cellsOf m → load h' c = load h c) → view h' m = view h m.
Proof.
  intros Hc. apply map_eq. intros k. rewrite !view_lookup.
  destruct (m !! k) as [c|] eqn:Hk; [|done]. simpl. f_equal.
  apply Hc, elem_of_cellsOf. eauto.
Qed.

Lemma view_store_ne h m c s : c ∉ cellsOf m → view (store h c s) m = view h m.
Proof.
  intros Hc. apply view_ext. intros c' Hc'. apply load_store_ne. congruence.
Qed.

Lemma view_store_in h m k c s :
  NoDup (cellsOf m) → m !! k = Some c → (c < List.length h)%nat →
  view (store h c s) m = <[k := s]> (view h m).
Proof.
  intros Hnd Hk Hc. apply map_eq. intros k'.
  destruct (decide (k = k')) as [<-|Hne].
  - rewrite lookup_insert_eq, view_lookup, Hk. simpl. by rewrite load_store_eq.
  - rewrite lookup_insert_ne, !view_lookup by done.
    destruct (m !! k') as [c'|] eqn:Hk'; [|done]. simpl. f_equal.
    apply load_store_ne. intros ->. apply Hne. eapply cellsOf_inj; eauto.
Qed.

Lemma view_alloc h m s :
  Forall (λ l, (l < List.length h)%nat) (cellsOf m) → view (h ++ [s]) m = view h m.
Proof.
  intros Hv. apply view_ext. intros c Hc. apply load_alloc_old.
  rewrite Forall_forall in Hv. by apply Hv.
Qed.
End view_facts.

(** ** [upsert] against [touch] *)

Section upsert_facts.
Context {K : Type} `{Countable K}.
Implicit Types (h : heap) (m : gmap K loc) (k : K) (c : loc).

Lemma upsert_sim h m k fresh upd h' m' :
  upsert h m k fresh upd = (h', m') →
  NoDup (cellsOf m) →
  Forall (λ l, (l < List.length h)%nat) (cellsOf m) →
  view h' m' = touch (view h m) k fresh upd
  ∧ (List.length h ≤ List.length h')%nat
  ∧ (∀ c, (c < List.length h)%nat → c ∉ cellsOf m → load h' c = load h c)
  ∧ NoDup (cellsOf m')
  ∧ Forall (λ l, (l < List.length h')%nat) (cellsOf m')
  ∧ (∀ c, c ∈ cellsOf m' → c ∈ cellsOf m ∨ (List.length h ≤ c)%nat).
Proof.
  unfold upsert, touch, alloc. intros Hup Hnd Hv.
  rewrite view_lookup. destruct (m !! k) as [rec|] eqn:Hk; simpl.
  - injection Hup as <- <-.
    assert (rec < List.length h)%nat as Hrec.
    { rewrite Forall_forall in Hv. apply Hv, elem_of_cellsOf. eauto. }
    split_and!.
    + by apply view_store_in.
    + by rewrite length_store.
    + intros c _ Hc. apply load_store_ne. intros ->. apply Hc, elem_of_cellsOf. eauto.
    + done.
    + by rewrite length_store.
    + auto.
  - injection Hup as <- <-.
    assert (List.length h ∉ cellsOf m) as Hfresh.
    { intros Hin. rewrite Forall_forall in Hv. specialize (Hv _ Hin). lia. }
    split_and!.
    + rewrite view_insert, load_alloc_new. f_equal. by apply view_alloc.
    + rewrite length_app. simpl. lia.
    + intros c Hc _. by apply load_alloc_old.
    + rewrite (cellsOf_insert _ _ _ Hk). by constructor.
    + rewrite (cellsOf_insert _ _ _ Hk), length_app. simpl. constructor; [lia|].
      eapply Forall_impl; [exact Hv|]. simpl. intros; lia.
    + intros c. rewrite (cellsOf_insert _ _ _ Hk), elem_of_cons.
      intros [->|Hc]; [right; lia|by left].
Qed.
End upsert_facts.

(** ** Well-formed aggregators *)

Lemma wf_unfold h d :
  wf h d ↔
    NoDup (cellsOf (queries d)) ∧ NoDup (cellsOf (values d))
    ∧ (∀ c, c ∈ cellsOf (queries d) → c ∉ cellsOf (values d))
    ∧ Forall (λ l, (l < List.length h)%nat) (cellsOf (queries d))
    ∧ Forall (λ l, (l < List.length h)%nat) (cellsOf (values d)).
Proof.
  unfold wf, cells. rewrite NoDup_app, Forall_app. naive_solver.
Qed.

Lemma wf_new h : wf h NewDNSAggregator.
Proof. apply wf_unfold. simpl. unfold cellsOf. rewrite !map_to_list_empty. simpl.
  split_and!; try constructor. intros c Hc. inversion Hc. Qed.

Lemma wf_grow h h' d : (List.length h ≤ List.length h')%nat → wf h d → wf h' d.
Proof.
  intros Hle [Hnd Hv]. split; [done|].
  eapply Forall_impl; [exact Hv|]. simpl. intros; lia.
Qed.

Lemma extends_refl h d : extends h d h d.
Proof. unfold extends. naive_solver. Qed.

Lemma extends_trans h1 d1 h2 d2 h3 d3 :
  extends h1 d1 h2 d2 → extends h2 d2 h3 d3 → extends h1 d1 h3 d3.
Proof.
  intros (Hl1 & Hf1 & Hc1) (Hl2 & Hf2 & Hc2). split_and!.
  - lia.
  - intros c Hc Hnc. rewrite Hf2, Hf1; [done..|lia|].
    intros Hin. destruct (Hc1 _ Hin); [done|lia].
  - intros c Hin. destruct (Hc2 _ Hin) as [Hin'|]; [|right; lia].
    destruct (Hc1 _ Hin'); [by left|right; lia].
Qed.

Lemma upsert_queries_sim h d k fresh upd h' qs :
  wf h d →
  upsert h (queries d) k fresh upd = (h', qs) →
  abs h' (set_queries qs d) =
    {| vqueries := touch (vqueries (abs h d)) k fresh upd;
       vvalues := vvalues (abs h d);
       vtotal := vtotal (abs h d); vskipped := vskipped (abs h d) |}
  ∧ wf h' (set_queries qs d)
  ∧ extends h d h' (set_queries qs d).
Proof.
  intros Hwf Hup. apply wf_unfold in Hwf as (Hq & Hv & Hqv & Hvq & Hvv).
  destruct (upsert_sim _ _ _ _ _ _ _ Hup Hq Hvq)
    as (Hview & Hlen & Hframe & Hnd & Hval & Hnew).
  rewrite Forall_forall in Hvv.
  split_and!.
  - unfold abs. simpl. f_equal; [done|].
    apply view_ext. intros c Hc. apply Hframe; [by apply Hvv|].
    intros Hcq. by apply (Hqv c).
  - apply wf_unfold. simpl. split_and!; try done.
    + intros c Hc Hcv. destruct (Hnew _ Hc) as [Hc'|Hc'].
      * by apply (Hqv c).
      * specialize (Hvv _ Hcv). simpl in Hvv. lia.
    + apply Forall_forall. intros c Hc. specialize (Hvv _ Hc). simpl in *. lia.
  - split_and!; [done| |].
    + intros c Hc Hnc. apply Hframe; [done|].
      intros Hin. apply Hnc. unfold cells. apply elem_of_app; auto.
    + unfold cells. simpl. intros c [Hc|Hc]%elem_of_app.
      * destruct (Hnew _ Hc); [left|right]; [apply elem_of_app; auto|done].
      * left. apply elem_of_app; auto.
Qed.

Lemma upsert_values_sim h d k fresh upd h' vs :
  wf h d →
  upsert h (values d) k fresh upd = (h', vs) →
  abs h' (set_values vs d) =
    {| vqueries := vqueries (abs h d);
       vvalues := touch (vvalues (abs h d)) k fresh upd;
       vtotal := vtotal (abs h d); vskipped := vskipped (abs h d) |}
  ∧ wf h' (set_values vs d)
  ∧ extends h d h' (set_values vs d).
Proof.
  intros Hwf Hup. apply wf_unfold in Hwf as (Hq & Hv & Hqv & Hvq & Hvv).
  destruct (upsert_sim _ _ _ _ _ _ _ Hup Hv Hvv)
    as (Hview & Hlen & Hframe & Hnd & Hval & Hnew).
  rewrite Forall_forall in Hvq.
  split_and!.
  - unfold abs. simpl. f_equal; [|done].
    apply view_ext. intros c Hc. apply Hframe; [by apply Hvq|].
    by apply Hqv.
  - apply wf_unfold. simpl. split_and!; try done.
    + intros c Hc Hcv. destruct (Hnew _ Hcv) as [Hc'|Hc'].
      * by apply (Hqv c).
      * specialize (Hvq _ Hc). simpl in Hvq. lia.
    + apply Forall_forall. intros c Hc. specialize (Hvq _ Hc). simpl in *. lia.
  - split_and!; [done| |].
    + intros c Hc Hnc. apply Hframe; [done|].
      intros Hin. apply Hnc. unfold cells. apply elem_of_app; auto.
    + unfold cells. simpl. intros c [Hc|Hc]%elem_of_app.
      * left. apply elem_of_app; auto.
      * destruct (Hnew _ Hc); [left|right]; [apply elem_of_app; auto|done].
Qed.

(** ** [AddRecord] against [AddRecordV] *)

Lemma abs_SkipRecord h d : abs h (SkipRecord d) = skipV (abs h d).
Proof. reflexivity. Qed.

Lemma wf_SkipRecord h d : wf h d → wf h (SkipRecord d).
Proof. done. Qed.

(** The heap-level loop computes what the value-level loop computes, keeps
    the aggregator well formed, and panics exactly when the other does. *)
Lemma answersLoop_sim r rest : ∀ idx h d,
  wf h d →
  match answersLoop r idx rest h d with
  | Some (h', d') =>
      answersLoopV r idx rest (abs h d) = Some (abs h' d')
      ∧ wf h' d' ∧ extends h d h' d'
  | None => answersLoopV r idx rest (abs h d) = None
  end.
Proof.
  induction rest as [|answer rest IH]; intros idx h d Hwf; simpl.
  { split_and!; [done..|apply extends_refl]. }
  destruct (MAX_SANE_VALUE_LEN <? len answer).
  { split_and!; [done..|exact (extends_refl h d)]. }
  destruct (String.eqb answer "-"); [by apply IH|].
  destruct (ttls r !! idx) as [t|]; [|done].
  destruct (upsert h (queries d) _ _ _) as [h1 qs] eqn:Hq.
  destruct (upsert h1 (values d) _ _ _) as [h2 vs] eqn:Hv.
  destruct (upsert_queries_sim _ _ _ _ _ _ _ Hwf Hq) as (Ha1 & Hwf1 & He1).
  change (values d) with (values (set_queries qs d)) in Hv.
  destruct (upsert_values_sim _ _ _ _ _ _ _ Hwf1 Hv) as (Ha2 & Hwf2 & He2).
  specialize (IH (S idx) h2 (set_values vs (set_queries qs d)) Hwf2).
  rewrite Ha2, Ha1 in IH. simpl in IH.
  destruct (answersLoop r (S idx) rest h2 _) as [[h' d']|]; [|done].
  destruct IH as (IHa & IHwf & IHe). split_and!; [done..|].
  eapply extends_trans; [exact He1|]. eapply extends_trans; [exact He2|done].
Qed.

Lemma AddRecord_sim h d r :
  wf h d →
  match AddRecord h d r with
  | Some (h', d') =>
      AddRecordV (abs h d) r = Some (abs h' d') ∧ wf h' d' ∧ extends h d h' d'
  | None => AddRecordV (abs h d) r = None
  end.
Proof.
  intros Hwf. unfold AddRecord, AddRecordV.
  destruct (MAX_SANE_VALUE_LEN <? len (query r)).
  { split_and!; [done..|exact (extends_refl h d)]. }
  destruct (upsert h (values (incr_total d)) _ _ _) as [h1 vs] eqn:Hv.
  assert (wf h (incr_total d)) as Hwf0 by done.
  destruct (upsert_values_sim _ _ _ _ _ _ _ Hwf0 Hv) as (Ha1 & Hwf1 & He1).
  pose proof (answersLoop_sim r (answers r) 0%nat h1 _ Hwf1) as Hloop.
  rewrite Ha1 in Hloop. simpl in Hloop.
  destruct (answersLoop r 0 (answers r) h1 _) as [[h' d']|]; [|done].
  destruct Hloop as (Ha & Hwf' & He). split_and!; [done..|].
  eapply extends_trans; [|exact He]. exact He1.
Qed.

(** Value-level counterpart of [AddRecords]. *)
Lemma AddRecords_sim rs : ∀ h d,
  wf h d →
  match AddRecords h d rs with
  | Some (h', d') =>
      foldl (λ a r, a ≫= (λ a, AddRecordV a r)) (Some (abs h d)) rs
        = Some (abs h' d')
      ∧ wf h' d' ∧ extends h d h' d'
  | None => foldl (λ a r, a ≫= (λ a, AddRecordV a r)) (Some (abs h d)) rs = None
  end.
Proof.
  induction rs as [|r rs IH]; intros h d Hwf; simpl.
  { split_and!; [done..|apply extends_refl]. }
  pose proof (AddRecord_sim h d r Hwf) as Hr.
  destruct (AddRecord h d r) as [[h1 d1]|].
  - destruct Hr as (-> & Hwf1 & He1). specialize (IH h1 d1 Hwf1).
    destruct (AddRecords h1 d1 rs) as [[h' d']|]; [|done].
    destruct IH as (? & ? & ?). split_and!; [done..|].
    by eapply extends_trans.
  - rewrite Hr. clear. induction rs; simpl; auto.
Qed.

(** ** [Merge] against [mergeV] *)

(** The four statements of the [else] branch amount to one store of the
    combined statistic, also when both pointers name the same cell. *)
Lemma mergeInto_combine h rec stat :
  (rec < List.length h)%nat →
  mergeInto h rec stat = store h rec (combine (load h rec) (load h stat)).
Proof.
  intros Hrec. unfold mergeInto.
  set (r0 := load h rec). set (s0 := load h stat).
  set (h1 := store h rec _).
  assert (List.length h1 = List.length h) as Hl1 by apply length_store.
  assert (load h1 rec = set_count (uint_add (count r0) (count s0)) r0) as Hr1
    by (by apply load_store_eq).
  assert (first (load h1 stat) = first s0 ∧ last (load h1 stat) = last s0
          ∧ ttl (load h1 stat) = ttl s0) as (Hf1 & Hla1 & Ht1).
  { destruct (decide (rec = stat)) as [<-|Hne].
    - rewrite Hr1. subst s0 r0. done.
    - unfold h1. by rewrite load_store_ne. }
  rewrite Hr1, Hf1. simpl.
  set (h2 := if first s0 <? first r0 then _ else h1).
  assert (List.length h2 = List.length h) as Hl2.
  { unfold h2. destruct (first s0 <? first r0); [by rewrite length_store|done]. }
  assert (load h2 rec =
            set_first (Z.min (first r0) (first s0))
              (set_count (uint_add (count r0) (count s0)) r0)) as Hr2.
  { unfold h2. destruct (Z.ltb_spec (first s0) (first r0)).
    - rewrite load_store_eq by lia. unfold set_first. simpl. f_equal. lia.
    - rewrite Hr1. unfold set_first, set_count. simpl. f_equal. lia. }
  assert (last (load h2 stat) = last s0 ∧ ttl (load h2 stat) = ttl s0)
    as (Hla2 & Ht2).
  { destruct (decide (rec = stat)) as [<-|Hne].
    - rewrite Hr2. simpl. subst s0 r0. done.
    - unfold h2. destruct (first s0 <? first r0); [|done].
      by rewrite load_store_ne. }
  assert (h2 = store h rec (load h2 rec)) as Hh2.
  { rewrite Hr2. unfold h2. destruct (Z.ltb_spec (first s0) (first r0)).
    - unfold h1. rewrite store_store. f_equal.
      unfold set_first, set_count. simpl. f_equal. lia.
    - unfold h1. f_equal. unfold set_first, set_count. simpl. f_equal. lia. }
  rewrite Hla2, Hr2. simpl.
  set (h3 := if last s0 >? last r0 then _ else h2).
  assert (load h3 rec =
            set_last (Z.max (last r0) (last s0))
              (set_first (Z.min (first r0) (first s0))
                 (set_count (uint_add (count r0) (count s0)) r0))) as Hr3.
  { unfold h3. destruct (Z.gtb_spec (last s0) (last r0)).
    - rewrite load_store_eq by lia. unfold set_last. simpl. f_equal. lia.
    - rewrite Hr2. unfold set_last, set_first, set_count. simpl. f_equal. lia. }
  assert (ttl (load h3 stat) = ttl s0) as Ht3.
  { destruct (decide (rec = stat)) as [<-|Hne].
    - rewrite Hr3. simpl. subst s0 r0. done.
    - unfold h3. destruct (last s0 >? last r0); [|done].
      by rewrite load_store_ne. }
  assert (∃ x, h3 = store h rec x) as [x Hh3].
  { unfold h3. destruct (last s0 >? last r0).
    - rewrite Hh2, store_store. eauto.
    - rewrite Hh2. eauto. }
  rewrite Ht3, Hr3, Hh3, store_store. done.
Qed.

Section mergeLoop_facts.
Context {K : Type} `{Countable K}.
Implicit Types (h : heap) (m : gmap K loc) (es : list (K * loc)).

Lemma mergeV_lookup (a b : gmap K queryStat) k :
  mergeV a b !! k =
    match a !! k, b !! k with
    | Some x, Some y => Some (combine x y)
    | Some x, None => Some x
    | None, y => y
    end.
Proof.
  unfold mergeV. rewrite lookup_union_with.
  by destruct (a !! k), (b !! k).
Qed.

Lemma cellsOf_list_to_map es c :
  c ∈ cellsOf (list_to_map es : gmap K loc) → c ∈ es.*2.
Proof.
  intros [k Hk]%elem_of_cellsOf. apply elem_of_list_to_map_2 in Hk.
  apply list_elem_of_fmap. by exists (k, c).
Qed.

(** The loop over the entries [es] of the other map, whatever their order:
    the receiving map denotes the key-wise combination, only the cells it
    held for keys of [es] have changed, and it stays well formed. *)
Lemma mergeLoop_sim es : ∀ h m h' m',
  mergeLoop h m es = (h', m') →
  NoDup es.*1 → NoDup es.*2 →
  Forall (λ l, (l < List.length h)%nat) es.*2 →
  NoDup (cellsOf m) →
  Forall (λ l, (l < List.length h)%nat) (cellsOf m) →
  (∀ c, c ∈ es.*2 → c ∉ cellsOf m) →
  view h' m' = mergeV (view h m) (view h (list_to_map es))
  ∧ List.length h' = List.length h
  ∧ (∀ c, (∀ k, k ∈ es.*1 → m !! k ≠ Some c) → load h' c = load h c)
  ∧ (∀ c, c ∈ cellsOf m' → c ∈ cellsOf m ∨ c ∈ es.*2)
  ∧ NoDup (cellsOf m').
Proof.
  induction es as [|[k st] es IH]; intros h m h' m' Hloop Hk Hc Hval Hm Hmv Hdisj.
  { injection Hloop as <- <-. simpl. split_and!; try done; [|auto].
    apply map_eq. intros k. rewrite mergeV_lookup, !view_lookup. simpl.
    rewrite lookup_empty. by destruct (m !! k). }
  unfold mergeLoop in Hloop. simpl in Hloop.
  apply NoDup_cons in Hk as [Hk_notin Hk]. simpl in Hc, Hval.
  apply NoDup_cons in Hc as [Hc_notin Hc].
  apply Forall_cons in Hval as [Hst Hval].
  unfold mergeStep in Hloop at 2. simpl in Hloop.
  assert (st ∉ cellsOf m) as Hst_m by (apply Hdisj; simpl; apply elem_of_cons; auto).
  assert ((list_to_map es : gmap K loc) !! k = None) as HLk
    by (by apply not_elem_of_list_to_map_1).
  destruct (m !! k) as [rec|] eqn:Hmk.
  - (* the key is present: combine in place *)
    assert (rec ∈ cellsOf m) as Hrec_in by (apply elem_of_cellsOf; eauto).
    assert (rec < List.length h)%nat as Hrec
      by (rewrite Forall_forall in Hmv; by apply Hmv).
    rewrite mergeInto_combine in Hloop by done.
    set (h1 := store h rec _) in Hloop.
    assert (List.length h1 = List.length h) as Hl1 by apply length_store.
    destruct (IH h1 m h' m' Hloop) as (Hview & Hlen & Hframe & Hcells & Hnd);
      try done.
    { by rewrite Hl1. }
    { by rewrite Hl1. }
    { intros c Hin. apply Hdisj. simpl. apply elem_of_cons; auto. }
    split_and!.
    + rewrite Hview. apply map_eq. intros k'.
      rewrite !mergeV_lookup. unfold h1.
      rewrite (view_store_in h m k rec) by done.
      rewrite (view_store_ne h (list_to_map es)).
      2:{ intros Hin%cellsOf_list_to_map.
          apply (Hdisj rec); simpl; [apply elem_of_cons; auto|done]. }
      simpl. rewrite view_insert.
      destruct (decide (k = k')) as [<-|Hne].
      * rewrite !lookup_insert_eq, !view_lookup, HLk, Hmk. done.
      * by rewrite !lookup_insert_ne.
    + lia.
    + intros c Hnot. rewrite Hframe.
      * unfold h1. apply load_store_ne. intros ->.
        apply (Hnot k); simpl; [apply elem_of_cons; auto|done].
      * intros k' Hk'. apply Hnot. simpl. apply elem_of_cons; auto.
    + intros c Hin. destruct (Hcells _ Hin); [by left|right]. simpl.
      apply elem_of_cons; auto.
    + done.
  - (* the key is absent: adopt the other's cell *)
    assert (NoDup (cellsOf (<[k:=st]> m))) as Hnd1.
    { rewrite (cellsOf_insert _ _ _ Hmk). by constructor. }
    destruct (IH h (<[k:=st]> m) h' m' Hloop) as (Hview & Hlen & Hframe & Hcells & Hnd);
      try done.
    { rewrite (cellsOf_insert _ _ _ Hmk). by constructor. }
    { intros c Hin. rewrite (cellsOf_insert _ _ _ Hmk), not_elem_of_cons. split.
      - intros ->. done.
      - apply Hdisj. simpl. apply elem_of_cons; auto. }
    split_and!.
    + rewrite Hview. apply map_eq. intros k'.
      rewrite !mergeV_lookup. simpl. rewrite !view_insert.
      destruct (decide (k = k')) as [<-|Hne].
      * rewrite !lookup_insert_eq, !view_lookup, HLk, Hmk. done.
      * by rewrite !lookup_insert_ne.
    + done.
    + intros c Hnot. apply Hframe. intros k' Hk' Hl.
      destruct (decide (k = k')) as [<-|Hne]; [done|].
      rewrite lookup_insert_ne in Hl by done.
      apply (Hnot k'); simpl; [apply elem_of_cons; auto|done].
    + intros c Hin. destruct (Hcells _ Hin) as [Hc'|Hc'].
      * rewrite (cellsOf_insert _ _ _ Hmk) in Hc'. simpl.
        apply elem_of_cons in Hc' as [->|Hc']; [right; apply elem_of_cons; auto|by left].
      * right. simpl. apply elem_of_cons; auto.
    + done.
Qed.
End mergeLoop_facts.

(** The pointer map after the loop: present keys keep their cell, absent
    keys take the other's cell. *)
Lemma mergeLoop_map {K} `{Countable K} (es : list (K * loc)) : ∀ h m,
  (mergeLoop h m es).2 = m ∪ list_to_map es.
Proof.
  induction es as [|[k st] es IH]; intros h m.
  { simpl. by rewrite (right_id_L ∅ (∪)). }
  unfold mergeLoop. simpl. unfold mergeStep at 2. simpl.
  destruct (m !! k) as [rec|] eqn:Hk.
  - fold (mergeLoop (mergeInto h rec st) m es). rewrite IH.
    apply map_eq. intros i. rewrite !lookup_union.
    destruct (decide (k = i)) as [<-|Hne].
    + rewrite Hk. by destruct (list_to_map es !! k), (<[k:=st]> (list_to_map es) !! k).
    + by rewrite lookup_insert_ne.
  - fold (mergeLoop h (<[k:=st]> m) es). rewrite IH.
    apply map_eq. intros i. rewrite !lookup_union.
    destruct (decide (k = i)) as [<-|Hne].
    + rewrite !lookup_insert_eq, Hk. by destruct (list_to_map es !! k).
    + by rewrite !lookup_insert_ne.
Qed.

Lemma sep_spec d o : sep d o ↔ ∀ c, c ∈ cells d → c ∉ cells o.
Proof. unfold sep. by rewrite Forall_forall. Qed.

Lemma sep_sym d o : sep d o → sep o d.
Proof. rewrite !sep_spec. naive_solver. Qed.

Lemma elem_of_cells d c :
  c ∈ cells d ↔ c ∈ cellsOf (queries d) ∨ c ∈ cellsOf (values d).
Proof. unfold cells. apply elem_of_app. Qed.

(** The two loops on two well-formed aggregators that share no cell, in any
    order of visit. *)
Lemma MergeIn_sim h d o oq ov h' d' :
  wf h d → wf h o → sep d o →
  oq ≡ₚ map_to_list (queries o) → ov ≡ₚ map_to_list (values o) →
  MergeIn h d oq ov = (h', d') →
  abs h' d' = MergeV (abs h d) (abs h o)
  ∧ wf h' d'
  ∧ List.length h' = List.length h
  ∧ (∀ c, c ∉ cells d → load h' c = load h c)
  ∧ (∀ c, c ∈ cells d' → c ∈ cells d ∨ c ∈ cells o)
  ∧ queries d' = queries d ∪ queries o
  ∧ values d' = values d ∪ values o.
Proof.
  intros Hd Ho Hsep Hoq_perm Hov_perm HM. unfold MergeIn in HM.
  apply wf_unfold in Hd as (Hdq & Hdv & Hdqv & Hdqval & Hdvval).
  apply wf_unfold in Ho as (Hoq & Hov & Hoqv & Hoqval & Hovval).
  rewrite sep_spec in Hsep.
  assert (∀ c, c ∈ cells o → c ∉ cells d) as Hsep' by naive_solver.
  assert (oq.*2 ≡ₚ cellsOf (queries o)) as Hoq_perm2
    by (unfold cellsOf; by rewrite Hoq_perm).
  assert (ov.*2 ≡ₚ cellsOf (values o)) as Hov_perm2
    by (unfold cellsOf; by rewrite Hov_perm).
  assert (NoDup oq.*1) as Hoq_perm1
    by (rewrite Hoq_perm; apply NoDup_fst_map_to_list).
  assert (NoDup ov.*1) as Hov_perm1
    by (rewrite Hov_perm; apply NoDup_fst_map_to_list).
  assert ((list_to_map oq : gmap uniqueTuple loc) = queries o) as Hmq.
  { rewrite <- (list_to_map_to_list (queries o)).
    by apply list_to_map_proper. }
  assert ((list_to_map ov : gmap uniqueIndividual loc) = values o) as Hmv.
  { rewrite <- (list_to_map_to_list (values o)).
    by apply list_to_map_proper. }
  pose proof (mergeLoop_map oq h (queries d)) as Hmap1.
  destruct (mergeLoop h (queries d) oq) as [h1 qs] eqn:H1.
  pose proof (mergeLoop_map ov h1 (values d)) as Hmap2.
  destruct (mergeLoop h1 (values d) ov) as [h2 vs] eqn:H2.
  injection HM as <- <-. simpl in Hmap1, Hmap2.
  destruct (mergeLoop_sim _ _ _ _ _ H1)
    as (Hv1 & Hl1 & Hf1 & Hc1 & Hn1); try done.
  { by rewrite Hoq_perm2. }
  { by rewrite Hoq_perm2. }
  { intros c Hc Hin. rewrite Hoq_perm2 in Hc.
    apply (Hsep' c); apply elem_of_cells; by left. }
  rewrite Hmq in Hv1.
  assert (∀ c, c ∉ cellsOf (queries d) → load h1 c = load h c) as Hf1'.
  { intros c Hc. apply Hf1. intros k _ Hk. apply Hc, elem_of_cellsOf. eauto. }
  destruct (mergeLoop_sim _ _ _ _ _ H2)
    as (Hv2 & Hl2 & Hf2 & Hc2 & Hn2); try done.
  { by rewrite Hov_perm2. }
  { by rewrite Hov_perm2, Hl1. }
  { by rewrite Hl1. }
  { intros c Hc Hin. rewrite Hov_perm2 in Hc.
    apply (Hsep' c); apply elem_of_cells; by right. }
  rewrite Hmv in Hv2.
  assert (∀ c, c ∉ cellsOf (values d) → load h2 c = load h1 c) as Hf2'.
  { intros c Hc. apply Hf2. intros k _ Hk. apply Hc, elem_of_cellsOf. eauto. }
  assert (∀ c, c ∈ cellsOf qs → c ∈ cellsOf (queries d) ∨ c ∈ cellsOf (queries o))
    as Hc1'.
  { intros c Hc. destruct (Hc1 _ Hc) as [?|Hin]; [by left|right].
    by rewrite <- Hoq_perm2. }
  assert (∀ c, c ∈ cellsOf vs → c ∈ cellsOf (values d) ∨ c ∈ cellsOf (values o))
    as Hc2'.
  { intros c Hc. destruct (Hc2 _ Hc) as [?|Hin]; [by left|right].
    by rewrite <- Hov_perm2. }
  clear Hc1 Hc2.
  assert (∀ c, c ∈ cellsOf qs → c ∉ cellsOf (values d)) as Hqs_vd.
  { intros c Hc. destruct (Hc1' _ Hc) as [?|Hco]; [by apply Hdqv|].
    intros Hin. apply (Hsep' c); apply elem_of_cells; auto. }
  split_and!.
  - unfold abs, MergeV. simpl. f_equal.
    + rewrite <- Hv1. apply view_ext. intros c Hc. by apply Hf2', Hqs_vd.
    + rewrite Hv2. f_equal.
      * apply view_ext. intros c Hc. apply Hf1'. intros Hin. by apply (Hdqv c).
      * apply view_ext. intros c Hc. apply Hf1'. intros Hin.
        apply (Hsep c); apply elem_of_cells; auto.
  - apply wf_unfold. simpl. split_and!; try done.
    + intros c Hc Hcv. destruct (Hc2' _ Hcv) as [Hcv'|Hcv']; [by apply (Hqs_vd c)|].
      destruct (Hc1' _ Hc) as [Hc'|Hc'].
      * apply (Hsep c); apply elem_of_cells; auto.
      * by apply (Hoqv c).
    + apply Forall_forall. intros c Hc. rewrite Hl2, Hl1.
      rewrite Forall_forall in Hdqval, Hoqval.
      destruct (Hc1' _ Hc); auto.
    + apply Forall_forall. intros c Hc. rewrite Hl2, Hl1.
      rewrite Forall_forall in Hdvval, Hovval.
      destruct (Hc2' _ Hc); auto.
  - lia.
  - intros c Hc. rewrite elem_of_cells in Hc.
    rewrite Hf2', Hf1'; [done|..]; intros Hin; apply Hc; auto.
  - intros c. rewrite !elem_of_cells. simpl. intros [Hc|Hc].
    + destruct (Hc1' _ Hc); auto.
    + destruct (Hc2' _ Hc); auto.
  - simpl. by rewrite Hmap1, Hmq.
  - simpl. by rewrite Hmap2, Hmv.
Qed.

(** [Merge] of two well-formed aggregators that share no cell. *)
Lemma Merge_sim h d o h' d' :
  wf h d → wf h o → sep d o →
  Merge h d o = (h', d') →
  abs h' d' = MergeV (abs h d) (abs h o)
  ∧ wf h' d'
  ∧ List.length h' = List.length h
  ∧ (∀ c, c ∉ cells d → load h' c = load h c)
  ∧ (∀ c, c ∈ cells d' → c ∈ cells d ∨ c ∈ cells o).
Proof.
  intros Hd Ho Hsep HM.
  destruct (MergeIn_sim h d o _ _ h' d' Hd Ho Hsep
              (reflexivity _) (reflexivity _) HM)
    as (? & ? & ? & ? & ? & _). done.
Qed.

(** X8.  The order in which Go visits the entries of [other]'s maps does not
    matter: every order leaves the receiver with the same pointer maps and the
    same statistics as the one [Merge] is defined with. *)
Lemma Merge_any_order h d o oq ov :
  wf h d → wf h o → sep d o →
  oq ≡ₚ map_to_list (queries o) → ov ≡ₚ map_to_list (values o) →
  abs (MergeIn h d oq ov).1 (MergeIn h d oq ov).2
    = abs (Merge h d o).1 (Merge h d o).2
  ∧ queries (MergeIn h d oq ov).2 = queries (Merge h d o).2
  ∧ values (MergeIn h d oq ov).2 = values (Merge h d o).2.
Proof.
  intros Hd Ho Hsep Hoq_perm Hov_perm.
  destruct (MergeIn h d oq ov) as [h1 d1] eqn:H1.
  destruct (Merge h d o) as [h2 d2] eqn:H2.
  destruct (MergeIn_sim h d o _ _ _ _ Hd Ho Hsep Hoq_perm Hov_perm H1)
    as (Ha1 & _ & _ & _ & _ & Hq1 & Hv1).
  destruct (MergeIn_sim h d o _ _ _ _ Hd Ho Hsep
              (reflexivity _) (reflexivity _) H2)
    as (Ha2 & _ & _ & _ & _ & Hq2 & Hv2).
  simpl. by rewrite Ha1, Ha2, Hq1, Hq2, Hv1, Hv2.
Qed.

(** *** The combine rule is a semigroup operation *)

Lemma uint_add_assoc x y z :
  uint_add (uint_add x y) z = uint_add x (uint_add y z).
Proof.
  unfold uint_add. rewrite Zplus_mod_idemp_l, Zplus_mod_idemp_r.
  f_equal. lia.
Qed.


Lemma combine_assoc x y z :
  combine (combine x y) z = combine x (combine y z).
Proof.
  unfold combine. simpl. f_equal; [apply uint_add_assoc|lia|lia].
Qed.

Lemma mergeV_assoc {K} `{Countable K} (a b c : gmap K queryStat) :
  mergeV (mergeV a b) c = mergeV a (mergeV b c).
Proof.
  apply map_eq. intros k. rewrite !mergeV_lookup.
  destruct (a !! k), (b !! k), (c !! k); try done.
  by rewrite combine_assoc.
Qed.

Lemma MergeV_assoc a b c : MergeV (MergeV a b) c = MergeV a (MergeV b c).
Proof. unfold MergeV. simpl. by rewrite !mergeV_assoc. Qed.

Lemma Merge_maps h d o :
  queries (Merge h d o).2 = queries d ∪ queries o
  ∧ values (Merge h d o).2 = values d ∪ values o.
Proof.
  unfold Merge, MergeIn.
  pose proof (mergeLoop_map (map_to_list (queries o)) h (queries d)) as Hq.
  destruct (mergeLoop h (queries d) _) as [h1 qs].
  pose proof (mergeLoop_map (map_to_list (values o)) h1 (values d)) as Hv.
  destruct (mergeLoop h1 (values d) _) as [h2 vs].
  simpl in *. by rewrite Hq, Hv, !list_to_map_to_list.
Qed.

(** Cells of a third aggregator, apart from the receiver, are not touched. *)
Lemma Merge_frame h d o h' d' c0 :
  wf h d → wf h o → sep d o → Merge h d o = (h', d') →
  wf h c0 → sep d c0 →
  abs h' c0 = abs h c0 ∧ wf h' c0.
Proof.
  intros Hd Ho Hsep HM Hc Hdc.
  destruct (Merge_sim _ _ _ _ _ Hd Ho Hsep HM) as (_ & _ & Hl & Hf & _).
  rewrite sep_spec in Hdc.
  split.
  - unfold abs. f_equal; apply view_ext; intros c Hin; apply Hf;
      intros Hcd; apply (Hdc c Hcd), elem_of_cells; auto.
  - destruct Hc as [Hnd Hv]. split; [done|]. by rewrite Hl.
Qed.

Lemma sep_after_Merge h d o h' d' c0 :
  wf h d → wf h o → sep d o → Merge h d o = (h', d') →
  sep d c0 → sep o c0 → sep d' c0.
Proof.
  intros Hd Ho Hsep HM Hdc Hoc.
  destruct (Merge_sim _ _ _ _ _ Hd Ho Hsep HM) as (_ & _ & _ & _ & Hcells).
  rewrite sep_spec in *. intros c Hc. destruct (Hcells _ Hc); auto.
Qed.

(** Folding three separate aggregators left to right or right to left leaves
    the receiver denoting the same statistics. *)
Lemma Merge_assoc_abs h A B C h1 A1 h2 A2 g1 B1 g2 A2' :
  wf h A → wf h B → wf h C → sep A B → sep A C → sep B C →
  Merge h A B = (h1, A1) → Merge h1 A1 C = (h2, A2) →
  Merge h B C = (g1, B1) → Merge g1 A B1 = (g2, A2') →
  abs h2 A2 = abs g2 A2'.
Proof.
  intros HA HB HC HAB HAC HBC M1 M2 N1 N2.
  (* left to right *)
  destruct (Merge_sim _ _ _ _ _ HA HB HAB M1) as (Ha1 & Hwf1 & _).
  destruct (Merge_frame _ _ _ _ _ C HA HB HAB M1 HC HAC) as (HaC & HwfC).
  pose proof (sep_after_Merge _ _ _ _ _ C HA HB HAB M1 HAC HBC) as HA1C.
  destruct (Merge_sim _ _ _ _ _ Hwf1 HwfC HA1C M2) as (Ha2 & _).
  (* right to left *)
  destruct (Merge_sim _ _ _ _ _ HB HC HBC N1) as (Hb1 & Hwfb1 & _).
  destruct (Merge_frame _ _ _ _ _ A HB HC HBC N1 HA (sep_sym _ _ HAB))
    as (HaA & HwfA).
  pose proof (sep_after_Merge _ _ _ _ _ A HB HC HBC N1
                (sep_sym _ _ HAB) (sep_sym _ _ HAC)) as HB1A.
  destruct (Merge_sim _ _ _ _ _ HwfA Hwfb1 (sep_sym _ _ HB1A) N2) as (Hb2 & _).
  rewrite Ha2, Ha1, HaC, Hb2, HaA, Hb1. apply MergeV_assoc.
Qed.

(** ** Claims about [Merge] *)

Lemma Merge_keywise h d o :
  wf h d → wf h o → sep d o →
  (∀ q, tupleStat (Merge h d o) q = keywise (tupleStat (h, d) q) (tupleStat (h, o) q))
  ∧ (∀ v, valueStat (Merge h d o) v = keywise (valueStat (h, d) v) (valueStat (h, o) v)).
Proof.
  intros Hd Ho Hsep. destruct (Merge h d o) as [h' d'] eqn:HM.
  destruct (Merge_sim _ _ _ _ _ Hd Ho Hsep HM) as (Ha & _).
  unfold abs, MergeV in Ha. simpl in Ha. injection Ha as Hq Hv.
  unfold tupleStat, valueStat. simpl.
  split; intros k; [rewrite Hq|rewrite Hv]; rewrite mergeV_lookup;
    unfold keywise; repeat case_match; done.
Qed.

Lemma Merge_assoc_stat h A B C :
  wf h A → wf h B → wf h C → sep A B → sep A C → sep B C →
  (∀ q, tupleStat (mergeLeft h A B C) q = tupleStat (mergeRight h A B C) q)
  ∧ (∀ v, valueStat (mergeLeft h A B C) v = valueStat (mergeRight h A B C) v).
Proof.
  intros HA HB HC HAB HAC HBC. unfold mergeLeft, mergeRight.
  destruct (Merge h A B) as [h1 A1] eqn:M1.
  destruct (Merge h1 A1 C) as [h2 A2] eqn:M2.
  destruct (Merge h B C) as [g1 B1] eqn:N1.
  destruct (Merge g1 A B1) as [g2 A2'] eqn:N2.
  pose proof (Merge_assoc_abs _ _ _ _ _ _ _ _ _ _ _ _
                HA HB HC HAB HAC HBC M1 M2 N1 N2) as Habs.
  unfold abs in Habs. injection Habs as Hq Hv _ _.
  unfold tupleStat, valueStat. simpl.
  split; intros k; [by rewrite Hq|by rewrite Hv].
Qed.

(** Aggregators built one after the other from fresh ones, as for separate
    input files, are well formed and share no cell. *)
Lemma AddRecords_fresh_sep h A rs h' B :
  wf h A →
  AddRecords h NewDNSAggregator rs = Some (h', B) →
  wf h' A ∧ wf h' B ∧ sep A B ∧ abs h' A = abs h A.
Proof.
  intros HA Hrun. pose proof (AddRecords_sim rs h NewDNSAggregator (wf_new h))
    as Hsim.
  rewrite Hrun in Hsim. destruct Hsim as (_ & HB & Hlen & Hframe & Hnew).
  assert (∀ c, c ∈ cells A → (c < List.length h)%nat) as HAv.
  { destruct HA as [_ Hv]. rewrite Forall_forall in Hv. exact Hv. }
  assert (∀ c, c ∉ cells NewDNSAggregator) as Hnone.
  { intros c Hc. unfold cells, cellsOf in Hc. simpl in Hc.
    rewrite !map_to_list_empty in Hc. inversion Hc. }
  split_and!.
  - by apply (wf_grow h).
  - done.
  - apply sep_spec. intros c Hc Hin. destruct (Hnew _ Hin) as [Hc'|Hc'].
    + by apply (Hnone c).
    + specialize (HAv _ Hc). lia.
  - unfold abs. f_equal; apply view_ext; intros c Hc; apply Hframe;
      try apply Hnone; apply HAv, elem_of_cells; auto.
Qed.

(** The two folds agree on three aggregators built from any three inputs. *)
Lemma Merge_assoc_of_built ra rb rc hA A hB B hC C :
  AddRecords [] NewDNSAggregator ra = Some (hA, A) →
  AddRecords hA NewDNSAggregator rb = Some (hB, B) →
  AddRecords hB NewDNSAggregator rc = Some (hC, C) →
  (∀ q, tupleStat (mergeLeft hC A B C) q = tupleStat (mergeRight hC A B C) q)
  ∧ (∀ v, valueStat (mergeLeft hC A B C) v = valueStat (mergeRight hC A B C) v).
Proof.
  intros Ha Hb Hc.
  destruct (AddRecords_fresh_sep [] NewDNSAggregator ra hA A (wf_new _) Ha)
    as (_ & HA & _ & _).
  destruct (AddRecords_fresh_sep hA A rb hB B HA Hb) as (HA' & HB & HAB & _).
  destruct (AddRecords_fresh_sep hB A rc hC C HA' Hc) as (HA'' & HC & HAC & _).
  destruct (AddRecords_fresh_sep hB B rc hC C HB Hc) as (HB' & _ & HBC & _).
  by apply Merge_assoc_stat.
Qed.



(** ** Claims about [AddRecord] *)

Section touch_facts.
Context {K : Type} `{Countable K}.
Implicit Types (m : gmap K queryStat) (k : K).

Lemma touch_lookup_eq m k fresh upd :
  touch m k fresh upd !! k = Some (from_option upd fresh (m !! k)).
Proof. unfold touch. destruct (m !! k); by rewrite lookup_insert_eq. Qed.

Lemma touch_lookup_ne m k k' fresh upd :
  k ≠ k' → touch m k fresh upd !! k' = m !! k'.
Proof. intros. unfold touch. destruct (m !! k); by rewrite lookup_insert_ne. Qed.

Lemma touch_ttl m k t ttl0 :
  ttl <$> touch m k (firstSeen t ttl0) (seenAgainTTL t ttl0) !! k = Some ttl0.
Proof. rewrite touch_lookup_eq. by destruct (m !! k). Qed.
End touch_facts.

Lemma lastUpdate_app {K} `{EqDecision K} (k : K) (us vs : list (K * string)) :
  lastUpdate k (us ++ vs) =
    match lastUpdate k vs with
    | Some t => Some t
    | None => lastUpdate k us
    end.
Proof.
  induction us as [|u us IH]; simpl.
  - by destruct (lastUpdate k vs).
  - rewrite IH. by destruct (lastUpdate k vs).
Qed.

(** After the loop, a key's TTL is the normalised TTL of the last slot that
    updated it, or what it was when no slot did. *)
Lemma answersLoopV_ttl r rest : ∀ idx a a',
  answersLoopV r idx rest a = Some a' →
  (∀ q, ttl <$> vqueries a' !! q =
        match lastUpdate q
                ((λ u, ({| ut_query := query r; ut_answer := u.1;
                           ut_qtype := qtype r |}, u.2))
                   <$> appliedSlots r idx rest) with
        | Some t => Some (stripDecimal t)
        | None => ttl <$> vqueries a !! q
        end)
  ∧ (∀ v, ttl <$> vvalues a' !! v =
        match lastUpdate v
                ((λ u, ({| value := u.1; which := "A" |}, u.2))
                   <$> appliedSlots r idx rest) with
        | Some t => Some (stripDecimal t)
        | None => ttl <$> vvalues a !! v
        end).
Proof.
  induction rest as [|answer rest IH]; intros idx a a' Hrun; simpl in *.
  { by injection Hrun as <-. }
  destruct (MAX_SANE_VALUE_LEN <? len answer).
  { by injection Hrun as <-. }
  destruct (String.eqb answer "-"); [by apply IH|].
  destruct (ttls r !! idx) as [t|]; [|done].
  destruct (IH _ _ _ Hrun) as [IHq IHv]. simpl in *.
  split.
  - intros q. rewrite IHq. destruct (lastUpdate q _); [done|].
    case_decide as Hk.
    + subst q. apply touch_ttl.
    + by rewrite touch_lookup_ne.
  - intros v. rewrite IHv. destruct (lastUpdate v _); [done|].
    case_decide as Hk.
    + subst v. apply touch_ttl.
    + by rewrite touch_lookup_ne.
Qed.

Lemma AddRecordV_ttl a r a' :
  AddRecordV a r = Some a' →
  (∀ q, ttl <$> vqueries a' !! q =
        match lastUpdate q (tupleUpdates [r]) with
        | Some t => Some (stripDecimal t)
        | None => ttl <$> vqueries a !! q
        end)
  ∧ (∀ x, ttl <$> vvalues a' !! {| value := x; which := "A" |} =
        match lastUpdate {| value := x; which := "A" |} (answerUpdates [r]) with
        | Some t => Some (stripDecimal t)
        | None => ttl <$> vvalues a !! {| value := x; which := "A" |}
        end).
Proof.
  unfold AddRecordV, tupleUpdates, answerUpdates, recordSlots. simpl.
  rewrite !(right_id_L [] (++)).
  destruct (MAX_SANE_VALUE_LEN <? len (query r)).
  { intros [= <-]. done. }
  intros Hrun. destruct (answersLoopV_ttl _ _ _ _ _ Hrun) as [Hq Hv]. simpl in *.
  split; [done|].
  intros x. rewrite Hv. destruct (lastUpdate _ _); [done|].
  by rewrite touch_lookup_ne.
Qed.

Lemma tupleUpdates_cons r rs :
  tupleUpdates (r :: rs) = tupleUpdates [r] ++ tupleUpdates rs.
Proof. unfold tupleUpdates. simpl. by rewrite (right_id_L [] (++)). Qed.

Lemma answerUpdates_cons r rs :
  answerUpdates (r :: rs) = answerUpdates [r] ++ answerUpdates rs.
Proof. unfold answerUpdates. simpl. by rewrite (right_id_L [] (++)). Qed.

Lemma AddRecordsV_ttl rs : ∀ a a',
  foldl (λ a r, a ≫= (λ a, AddRecordV a r)) (Some a) rs = Some a' →
  (∀ q, ttl <$> vqueries a' !! q =
        match lastUpdate q (tupleUpdates rs) with
        | Some t => Some (stripDecimal t)
        | None => ttl <$> vqueries a !! q
        end)
  ∧ (∀ x, ttl <$> vvalues a' !! {| value := x; which := "A" |} =
        match lastUpdate {| value := x; which := "A" |} (answerUpdates rs) with
        | Some t => Some (stripDecimal t)
        | None => ttl <$> vvalues a !! {| value := x; which := "A" |}
        end).
Proof.
  induction rs as [|r rs IH]; intros a a' Hrun; simpl in Hrun.
  { by injection Hrun as <-. }
  destruct (AddRecordV a r) as [a1|] eqn:Hr.
  2:{ exfalso. clear -Hrun. induction rs; simpl in *; [done|auto]. }
  destruct (IH _ _ Hrun) as [IHq IHv].
  destruct (AddRecordV_ttl _ _ _ Hr) as [Hq Hv].
  rewrite (tupleUpdates_cons r rs), (answerUpdates_cons r rs).
  split.
  - intros q. rewrite IHq, lastUpdate_app, Hq. by destruct (lastUpdate q (tupleUpdates rs)).
  - intros x. rewrite IHv, lastUpdate_app, Hv. by destruct (lastUpdate _ (answerUpdates rs)).
Qed.

(** *** [stripDecimal] *)

Lemma index_dot_cons c s :
  String.index 0 "." (String c s) =
    if decide (c = "."%char) then Some 0%nat
    else S <$> String.index 0 "." s.
Proof.
  cbn [String.index String.prefix].
  destruct (Ascii.ascii_dec "." c) as [<-|Hne].
  - rewrite decide_True by done. by destruct s.
  - rewrite decide_False by congruence. by destruct (String.index 0 "." s).
Qed.

Lemma index_dot_append i f :
  String.index 0 "." i = None →
  String.index 0 "." (i +:+ "." +:+ f) = Some (String.length i).
Proof.
  induction i as [|c i IH]; intros Hi.
  - change ("" +:+ "." +:+ f) with (String "." f). by rewrite index_dot_cons.
  - rewrite index_dot_cons in Hi. change (String c i +:+ "." +:+ f)
      with (String c (i +:+ "." +:+ f)). rewrite index_dot_cons.
    case_decide; [done|]. destruct (String.index 0 "." i); [done|].
    by rewrite IH.
Qed.

Lemma substring_append_l i u :
  String.substring 0 (String.length i) (i +:+ u) = i.
Proof.
  induction i as [|c i IH]; simpl.
  - by destruct u.
  - by rewrite IH.
Qed.

Lemma stripDecimal_sentinel : stripDecimal "-" = "0".
Proof. reflexivity. Qed.

Lemma stripDecimal_fraction i f :
  String.index 0 "." i = None → stripDecimal (i +:+ "." +:+ f) = i.
Proof.
  intros Hi. unfold stripDecimal.
  assert (String.eqb (i +:+ "." +:+ f) "-" = false) as ->.
  { apply String.eqb_neq. intros Heq.
    assert (String.index 0 "." (i +:+ "." +:+ f) = None) as Hno
      by (by rewrite Heq).
    by rewrite index_dot_append in Hno. }
  rewrite index_dot_append by done. apply substring_append_l.
Qed.

Lemma stripDecimal_integer v :
  String.index 0 "." v = None → v ≠ "-" → stripDecimal v = v.
Proof.
  intros Hv Hne. unfold stripDecimal.
  apply String.eqb_neq in Hne. by rewrite Hne, Hv.
Qed.

(** C6.  After a sequence of [AddRecord]s on a well-formed aggregator, the
    ttl of every tuple key and of every Answer key that the sequence updated
    is the normalised TTL of the last update applied to it, where
    normalisation maps "-" to "0", cuts a decimal fraction off, and leaves
    other strings alone. *)
Theorem ttl_is_last_update_normalized
    (h : heap) (d : DNSAggregator) (rs : list DNSRecord)
    (st' : heap * DNSAggregator) :
  wf h d →
  AddRecords h d rs = Some st' →
  (∀ q t, lastUpdate q (tupleUpdates rs) = Some t →
          ttl <$> tupleStat st' q = Some (stripDecimal t))
  ∧ (∀ x t,
       lastUpdate {| value := x; which := "A" |} (answerUpdates rs) = Some t →
       ttl <$> valueStat st' {| value := x; which := "A" |}
         = Some (stripDecimal t))
  ∧ stripDecimal "-" = "0"
  ∧ (∀ i f, String.index 0 "." i = None → stripDecimal (i +:+ "." +:+ f) = i)
  ∧ (∀ v, String.index 0 "." v = None → v ≠ "-" → stripDecimal v = v).
Proof.
  intros Hwf Hrun. pose proof (AddRecords_sim rs h d Hwf) as Hsim.
  rewrite Hrun in Hsim. destruct st' as [h' d']. destruct Hsim as (Hv & _).
  destruct (AddRecordsV_ttl _ _ _ Hv) as [Hq Ha].
  split_and!.
  - intros q t Hl. unfold tupleStat. simpl.
    change (view h' (queries d')) with (vqueries (abs h' d')).
    by rewrite Hq, Hl.
  - intros x t Hl. unfold valueStat. simpl.
    change (view h' (values d')) with (vvalues (abs h' d')).
    by rewrite Ha, Hl.
  - apply stripDecimal_sentinel.
  - apply stripDecimal_fraction.
  - apply stripDecimal_integer.
Qed.

Lemma ttl_is_last_update_normalized_witness :
  wf [] NewDNSAggregator
  ∧ AddRecords [] NewDNSAggregator [T300; T60] = Some (build [] [T300; T60])
  ∧ ttl <$> tupleStat (build [] [T300; T60]) keyT = Some "60"
  ∧ ttl <$> valueStat (build [] [T300; T60]) keyA = Some "60".
Proof.
  assert (wf [] NewDNSAggregator) as Hwf by apply wf_new.
  assert (AddRecords [] NewDNSAggregator [T300; T60]
          = Some (build [] [T300; T60])) as Hrun by (vm_compute; reflexivity).
  destruct (ttl_is_last_update_normalized [] NewDNSAggregator [T300; T60]
              (build [] [T300; T60]) Hwf Hrun) as (Hq & Ha & _).
  split_and!; [done|done| |].
  - apply (Hq keyT "60"). vm_compute. reflexivity.
  - apply (Ha "192.0.2.1" "60"). vm_compute. reflexivity.
Defined.

(** *** Arrival order *)

Lemma answersLoopV_query_keys r rest : ∀ idx a a',
  answersLoopV r idx rest a = Some a' →
  ∀ x, vvalues a' !! {| value := x; which := "Q" |}
       = vvalues a !! {| value := x; which := "Q" |}.
Proof.
  induction rest as [|answer rest IH]; intros idx a a' Hrun x; simpl in *.
  { by injection Hrun as <-. }
  destruct (MAX_SANE_VALUE_LEN <? len answer).
  { by injection Hrun as <-. }
  destruct (String.eqb answer "-"); [by eapply IH|].
  destruct (ttls r !! idx) as [t|]; [|done].
  rewrite (IH _ _ _ Hrun). simpl. by rewrite touch_lookup_ne.
Qed.

(** What [AddRecord] does to a query it has seen before: the count goes up,
    [last] becomes the record's timestamp and [first] stays, whichever of the
    timestamps is the smaller. *)
Lemma AddRecord_seen_query h d r st' s :
  wf h d →
  len (query r) ≤ MAX_SANE_VALUE_LEN →
  valueStat (h, d) {| value := query r; which := "Q" |} = Some s →
  AddRecord h d r = Some st' →
  valueStat st' {| value := query r; which := "Q" |}
    = Some {| count := uint_add (count s) 1; first := first s;
              last := ts r; ttl := ttl s |}.
Proof.
  intros Hwf Hlen Hs Hrun. pose proof (AddRecord_sim h d r Hwf) as Hsim.
  rewrite Hrun in Hsim. destruct st' as [h' d']. destruct Hsim as (Hv & _).
  unfold AddRecordV in Hv.
  destruct (Z.ltb_spec MAX_SANE_VALUE_LEN (len (query r))); [lia|].
  apply answersLoopV_query_keys with (x := query r) in Hv. simpl in Hv.
  unfold valueStat in *. simpl in *.
  by rewrite Hv, touch_lookup_eq, Hs.
Qed.

(** [AddRecord] panics only on a record with fewer TTLs than answers. *)
Lemma answersLoop_returns r rest : ∀ idx h d,
  (idx + List.length rest ≤ List.length (ttls r))%nat →
  is_Some (answersLoop r idx rest h d).
Proof.
  induction rest as [|answer rest IH]; intros idx h d Hlen; simpl in *; [done|].
  destruct (MAX_SANE_VALUE_LEN <? len answer); [done|].
  destruct (String.eqb answer "-"); [apply IH; lia|].
  destruct (lookup_lt_is_Some_2 (ttls r) idx) as [t ->]; [lia|].
  destruct (upsert h (queries d) _ _ _) as [h1 qs].
  destruct (upsert h1 (values d) _ _ _) as [h2 vs].
  apply IH. lia.
Qed.

Lemma AddRecord_returns h d r :
  (List.length (answers r) ≤ List.length (ttls r))%nat →
  is_Some (AddRecord h d r).
Proof.
  intros Hlen. unfold AddRecord.
  destruct (MAX_SANE_VALUE_LEN <? len (query r)); [done|].
  destruct (upsert h _ _ _ _) as [h1 vs]. by apply answersLoop_returns.
Qed.

Lemma AddRecords_returns rs : ∀ h d,
  Forall (λ r, (List.length (answers r) ≤ List.length (ttls r))%nat) rs →
  is_Some (AddRecords h d rs).
Proof.
  induction rs as [|r rs IH]; intros h d Hrs; simpl; [done|].
  apply Forall_cons in Hrs as [Hr Hrs].
  destruct (AddRecord_returns h d r Hr) as [[h1 d1] ->]. by apply IH.
Qed.

(** Records that arrive in the order of their timestamps keep
    [first ≤ last]: a statistic first seen no later than [t] stays so through
    a record stamped [t]. *)

Lemma touch_seenBy {K} `{Countable K} (m : gmap K queryStat) k t fresh upd :
  map_Forall (λ _, seenBy t) m →
  seenBy t fresh → (∀ s, seenBy t s → seenBy t (upd s)) →
  map_Forall (λ _, seenBy t) (touch m k fresh upd).
Proof.
  intros Hm Hf Hu. unfold touch. destruct (m !! k) as [s|] eqn:Hk.
  - apply map_Forall_insert_2; [|done]. apply Hu. by apply (Hm k).
  - by apply map_Forall_insert_2.
Qed.

Lemma firstSeen_seenBy t ttl0 : seenBy t (firstSeen t ttl0).
Proof. unfold seenBy, ordered. simpl. lia. Qed.

Lemma seenAgain_seenBy t s : seenBy t s → seenBy t (seenAgain t s).
Proof. unfold seenBy, ordered. simpl. lia. Qed.

Lemma seenAgainTTL_seenBy t ttl0 s : seenBy t s → seenBy t (seenAgainTTL t ttl0 s).
Proof. unfold seenBy, ordered. simpl. lia. Qed.

Lemma answersLoopV_seenBy r rest : ∀ idx a a',
  answersLoopV r idx rest a = Some a' →
  map_Forall (λ _, seenBy (ts r)) (vqueries a) →
  map_Forall (λ _, seenBy (ts r)) (vvalues a) →
  map_Forall (λ _, seenBy (ts r)) (vqueries a')
  ∧ map_Forall (λ _, seenBy (ts r)) (vvalues a').
Proof.
  induction rest as [|answer rest IH]; intros idx a a' Hrun Hq Hv; simpl in *.
  { by injection Hrun as <-. }
  destruct (MAX_SANE_VALUE_LEN <? len answer).
  { by injection Hrun as <-. }
  destruct (String.eqb answer "-"); [by eapply IH|].
  destruct (ttls r !! idx) as [t|]; [|done].
  eapply IH; [exact Hrun|simpl..];
    (apply touch_seenBy;
     [done|apply firstSeen_seenBy|intros; by apply seenAgainTTL_seenBy]).
Qed.

Lemma AddRecord_in_order h d r st' :
  wf h d →
  AddRecord h d r = Some st' →
  (∀ q s, tupleStat (h, d) q = Some s → seenBy (ts r) s) →
  (∀ v s, valueStat (h, d) v = Some s → seenBy (ts r) s) →
  (∀ q s, tupleStat st' q = Some s → seenBy (ts r) s)
  ∧ (∀ v s, valueStat st' v = Some s → seenBy (ts r) s).
Proof.
  intros Hwf Hrun Hq Hv. pose proof (AddRecord_sim h d r Hwf) as Hsim.
  rewrite Hrun in Hsim. destruct st' as [h' d']. destruct Hsim as (Hsim & _).
  cut (map_Forall (λ _, seenBy (ts r)) (vqueries (abs h' d'))
       ∧ map_Forall (λ _, seenBy (ts r)) (vvalues (abs h' d'))).
  { intros [Hq' Hv']. split; [exact Hq'|exact Hv']. }
  unfold AddRecordV in Hsim.
  destruct (MAX_SANE_VALUE_LEN <? len (query r)).
  { apply (inj Some) in Hsim. rewrite <- Hsim. split; [exact Hq|exact Hv]. }
  apply answersLoopV_seenBy in Hsim; [done|exact Hq|]. simpl.
  apply touch_seenBy;
    [exact Hv|apply firstSeen_seenBy|intros; by apply seenAgain_seenBy].
Qed.

(** C1 (the code departs from the claim).  Feeding a fresh aggregator the same
    key at ts=10 and then at ts=5 leaves first=10 and last=5 on the tuple, on
    the query and on the answer: [AddRecord] assigns [last] and never lowers
    [first]. *)
Theorem AddRecord_ts10_then_ts5 :
  ∃ st, AddRecords [] NewDNSAggregator [K10; K5] = Some st
    ∧ cfl <$> tupleStat st keyT = Some (2, 10, 5)
    ∧ cfl <$> valueStat st keyQ = Some (2, 10, 5)
    ∧ cfl <$> valueStat st keyA = Some (2, 10, 5).
Proof.
  exists (build [] [K10; K5]). split_and!; vm_compute; reflexivity.
Qed.

(** *** The invariant first ≤ last *)

Lemma combine_ordered a b : ordered a → ordered b → ordered (combine a b).
Proof. unfold ordered, combine. simpl. lia. Qed.

(** X9.  [Merge] keeps [first ≤ last]: when every statistic of two separate
    aggregators has its [first] no later than its [last], so has every
    statistic of the receiver after the merge. *)
Lemma Merge_preserves_ordered h d o :
  wf h d → wf h o → sep d o →
  (∀ q s, tupleStat (h, d) q = Some s → ordered s) →
  (∀ q s, tupleStat (h, o) q = Some s → ordered s) →
  (∀ v s, valueStat (h, d) v = Some s → ordered s) →
  (∀ v s, valueStat (h, o) v = Some s → ordered s) →
  (∀ q s, tupleStat (Merge h d o) q = Some s → ordered s)
  ∧ (∀ v s, valueStat (Merge h d o) v = Some s → ordered s).
Proof.
  intros Hd Ho Hsep Hqd Hqo Hvd Hvo.
  destruct (Merge_keywise h d o Hd Ho Hsep) as [Hq Hv].
  split.
  - intros q s. rewrite Hq. unfold keywise.
    destruct (tupleStat (h, d) q) as [a|] eqn:Ha,
             (tupleStat (h, o) q) as [b|] eqn:Hb; intros [= <-]; eauto.
    apply combine_ordered; eauto.
  - intros v s. rewrite Hv. unfold keywise.
    destruct (valueStat (h, d) v) as [a|] eqn:Ha,
             (valueStat (h, o) v) as [b|] eqn:Hb; intros [= <-]; eauto.
    apply combine_ordered; eauto.
Qed.

(** C2 (the code departs from the claim).  Two [AddRecord]s from the empty
    aggregator reach a statistic with [last < first]. *)
Theorem AddRecord_breaks_first_le_last :
  ∃ st s, AddRecords [] NewDNSAggregator [K10; K5] = Some st
    ∧ tupleStat st keyT = Some s
    ∧ last s < first s.
Proof.
  exists (build [] [K10; K5]),
    {| count := 2; first := 10; last := 5; ttl := "60" |}.
  split_and!; [vm_compute; reflexivity..|simpl; lia].
Qed.

(** *** The end-to-end scenario *)

(** C3 (the code departs from the claim).  R1, R2, R3 give total=3,
    skipped=0, the one tuple with count=2, first=100, last=200, ttl="60", the
    answer with count=2, first=100, last=200, and the query with count=3,
    first=100 and last=150, the timestamp of R3, not 200. *)
Theorem scenario_R1_R2_R3 :
  ∃ st, AddRecords [] NewDNSAggregator [R1; R2; R3] = Some st
    ∧ TotalRecords (GetResult st.1 st.2) = 3
    ∧ SkippedRecords (GetResult st.1 st.2) = 0
    ∧ Tuples (GetResult st.1 st.2) =
        [({| ut_query := "www.example.com"; ut_answer := "1.1.1.1";
             ut_qtype := "A" |},
          {| count := 2; first := 100; last := 200; ttl := "60" |})]
    ∧ Individual (GetResult st.1 st.2) ≡ₚ
        [({| value := "www.example.com"; which := "Q" |},
          {| count := 3; first := 100; last := 150; ttl := "" |});
         ({| value := "1.1.1.1"; which := "A" |},
          {| count := 2; first := 100; last := 200; ttl := "60" |})].
Proof.
  exists (build [] [R1; R2; R3]).
  split_and!; vm_compute; reflexivity.
Qed.

(** *** Oversized values *)

(** An oversized query drops the record before anything is touched. *)
Lemma AddRecord_oversized_query h d r :
  MAX_SANE_VALUE_LEN < len (query r) →
  AddRecord h d r = Some (h, SkipRecord d).
Proof.
  intros Hlen. unfold AddRecord.
  by destruct (Z.ltb_spec MAX_SANE_VALUE_LEN (len (query r))); [|lia].
Qed.

(** C5 (the code departs from the claim).  A record whose second answer is
    oversized is counted as skipped, and yet it is counted in the total, its
    query is recorded and its first answer is recorded as a tuple and as an
    answer. *)
Theorem AddRecord_oversized_answer_keeps_earlier_updates :
  MAX_SANE_VALUE_LEN < len oversized
  ∧ ∃ st, AddRecord [] NewDNSAggregator Rlong = Some st
      ∧ skippedRecords st.2 = 1
      ∧ totalRecords st.2 = 1
      ∧ valueStat st keyQ = Some (firstSeen 1 "")
      ∧ tupleStat st keyT = Some (firstSeen 1 "60")
      ∧ valueStat st keyA = Some (firstSeen 1 "60").
Proof.
  split; [vm_compute; reflexivity|].
  exists (build [] [Rlong]). split_and!; vm_compute; reflexivity.
Qed.

(** * The store *)

(** ** The stored procedures *)

(** One iteration of the [LOOP] always ends the procedure when nobody else
    writes: the result does not depend on the fuel, once there is some. *)
Lemma update_tuples_once fuel T q ty a tt0 c f l :
  update_tuples (S fuel) T q ty a tt0 c f l =
    match T !! (q, ty, a) with
    | Some row =>
        if int8_ok (t_count row + c) then
          Done ("U"%char,
                <[(q, ty, a) :=
                    {| t_count := t_count row + c; t_ttl := tt0;
                       t_first := Z.min f (t_first row);
                       t_last := Z.max l (t_last row) |}]> T)
        else Raise
    | None =>
        Done ("I"%char,
              <[(q, ty, a) :=
                  {| t_count := c; t_ttl := tt0; t_first := f; t_last := l |}]> T)
    end.
Proof. simpl. by destruct (T !! (q, ty, a)). Qed.

Lemma update_individual_once fuel T w v c f l :
  update_individual (S fuel) T w v c f l =
    match T !! (w, v) with
    | Some row =>
        if int8_ok (i_count row + c) then
          Done ("U"%char,
                <[(w, v) :=
                    {| i_count := i_count row + c;
                       i_first := Z.min f (i_first row);
                       i_last := Z.max l (i_last row) |}]> T)
        else Raise
    | None =>
        Done ("I"%char,
              <[(w, v) := {| i_count := c; i_first := f; i_last := l |}]> T)
    end.
Proof. simpl. by destruct (T !! (w, v)). Qed.

Lemma update_tuples_dom fuel T q ty a tt0 c f l ch T' :
  update_tuples fuel T q ty a tt0 c f l = Done (ch, T') →
  dom T' = dom T ∪ {[ (q, ty, a) ]}.
Proof.
  destruct fuel as [|fuel]; [done|]. rewrite update_tuples_once.
  destruct (T !! (q, ty, a)) as [row|].
  - destruct (int8_ok _); [|done]. intros [= _ <-]. rewrite dom_insert_L.
    apply (comm_L (∪)).
  - intros [= _ <-]. rewrite dom_insert_L. apply (comm_L (∪)).
Qed.

Lemma update_individual_dom fuel T w v c f l ch T' :
  update_individual fuel T w v c f l = Done (ch, T') →
  dom T' = dom T ∪ {[ (w, v) ]}.
Proof.
  destruct fuel as [|fuel]; [done|]. rewrite update_individual_once.
  destruct (T !! (w, v)) as [row|].
  - destruct (int8_ok _); [|done]. intros [= _ <-]. rewrite dom_insert_L.
    apply (comm_L (∪)).
  - intros [= _ <-]. rewrite dom_insert_L. apply (comm_L (∪)).
Qed.

Lemma run_bind_assoc {A B C} (m : run A) (f : A → run B) (g : B → run C) :
  (m ≫= f) ≫= g = m ≫= (λ a, f a ≫= g).
Proof. by destruct m. Qed.

Section store_facts.
Context `{Externals}.

Lemma tally_app c1 c2 r : tally (c1 +:+ c2) r = tally c2 (tally c1 r).
Proof. revert r. induction c1 as [|ch c1 IH]; intros r; simpl; [done|apply IH]. Qed.

Lemma execTupleCalls_app fuel r1 r2 T :
execTupleCalls fuel (r1 ++ r2) T =
  '(c1, T1) ← execTupleCalls fuel r1 T;
  '(c2, T2) ← execTupleCalls fuel r2 T1;
  Done (c1 +:+ c2, T2).
Proof.
revert T. induction r1 as [|a r1 IH]; intros T; simpl.
- destruct (execTupleCalls fuel r2 T) as [[c2 T2]| |]; done.
- destruct (int4_in (ta_ttl a)) as [ttv|]; [|done].
  destruct (int4_ok (ta_count a)); [|done].
  destruct (update_tuples _ _ _ _ _ _ _ _ _) as [[ch T1]| |]; [|done..].
  simpl. rewrite IH.
  destruct (execTupleCalls fuel r1 T1) as [[c1 T2]| |]; [|done..]. simpl.
  destruct (execTupleCalls fuel r2 T2) as [[c2 T3]| |]; done.
Qed.

Lemma execIndividualCalls_app fuel r1 r2 T :
execIndividualCalls fuel (r1 ++ r2) T =
  '(c1, T1) ← execIndividualCalls fuel r1 T;
  '(c2, T2) ← execIndividualCalls fuel r2 T1;
  Done (c1 +:+ c2, T2).
Proof.
revert T. induction r1 as [|a r1 IH]; intros T; simpl.
- destruct (execIndividualCalls fuel r2 T) as [[c2 T2]| |]; done.
- destruct (int4_ok (ia_count a)); [|done].
  destruct (update_individual _ _ _ _ _ _ _) as [[ch T1]| |]; [|done..].
  simpl. rewrite IH.
  destruct (execIndividualCalls fuel r1 T1) as [[c1 T2]| |]; [|done..]. simpl.
  destruct (execIndividualCalls fuel r2 T2) as [[c2 T3]| |]; done.
Qed.

Lemma execAllTuples_nil fuel st : execAllTuples fuel [] st = Done st.
Proof. by destruct st as [[]]. Qed.

Lemma execAllIndividual_nil fuel st : execAllIndividual fuel [] st = Done st.
Proof. by destruct st as [[]]. Qed.

Lemma execAllTuples_app fuel r1 r2 st :
execAllTuples fuel (r1 ++ r2) st =
  execAllTuples fuel r1 st ≫= execAllTuples fuel r2.
Proof.
unfold execAllTuples. rewrite execTupleCalls_app.
destruct (execTupleCalls fuel r1 _) as [[c1 T1]| |]; [|done..]. simpl.
destruct (execTupleCalls fuel r2 T1) as [[c2 T2]| |]; [|done..]. simpl.
by rewrite tally_app.
Qed.

Lemma execAllIndividual_app fuel r1 r2 st :
execAllIndividual fuel (r1 ++ r2) st =
  execAllIndividual fuel r1 st ≫= execAllIndividual fuel r2.
Proof.
unfold execAllIndividual. rewrite execIndividualCalls_app.
destruct (execIndividualCalls fuel r1 _) as [[c1 T1]| |]; [|done..]. simpl.
destruct (execIndividualCalls fuel r2 T1) as [[c2 T2]| |]; [|done..]. simpl.
by rewrite tally_app.
Qed.

Lemma runBatchTuples_exec fuel args st :
runBatchTuples fuel args (List.length args) st = execAllTuples fuel args st.
Proof.
unfold runBatchTuples. destruct args as [|a args].
- simpl. by rewrite execAllTuples_nil.
- change (List.length (a :: args) =? 0)%nat with false.
  by rewrite Nat.eqb_refl.
Qed.

Lemma runBatchIndividual_exec fuel args st :
runBatchIndividual fuel args (List.length args) st
= execAllIndividual fuel args st.
Proof.
unfold runBatchIndividual. destruct args as [|a args].
- simpl. by rewrite execAllIndividual_nil.
- change (List.length (a :: args) =? 0)%nat with false.
  by rewrite Nat.eqb_refl.
Qed.

(** Cutting the rows into batches of [BATCHSIZE] and a last, shorter one runs
  the same calls in the same order as one pass over all the rows. *)
Lemma tupleLoop_cons fuel q qs args n st :
tupleLoop fuel (q :: qs) args n st =
  if (S n =? BATCHSIZE)%nat then
    runBatchTuples fuel (args ++ [tupleArgsOf q]) (S n) st
      ≫= tupleLoop fuel qs [] 0
  else tupleLoop fuel qs (args ++ [tupleArgsOf q]) (S n) st.
Proof. reflexivity. Qed.

Lemma individualLoop_cons fuel q qs args n st :
individualLoop fuel (q :: qs) args n st =
  if (S n =? BATCHSIZE)%nat then
    runBatchIndividual fuel (args ++ [individualArgsOf q]) (S n) st
      ≫= individualLoop fuel qs [] 0
  else individualLoop fuel qs (args ++ [individualArgsOf q]) (S n) st.
Proof. reflexivity. Qed.

Lemma BATCHSIZE_pos : (0 < BATCHSIZE)%nat.
Proof. unfold BATCHSIZE. lia. Qed.

Lemma tupleLoop_flush fuel qs : ∀ args st,
(List.length args < BATCHSIZE)%nat →
('(a, k, st') ← tupleLoop fuel qs args (List.length args) st;
 runBatchTuples fuel a k st')
= execAllTuples fuel (args ++ (tupleArgsOf <$> qs)) st.
Proof.
induction qs as [|q qs IH]; intros args st Hlt.
- simpl. by rewrite (right_id_L [] (++)), runBatchTuples_exec.
- assert (S (List.length args) = List.length (args ++ [tupleArgsOf q])) as Hlen
    by (rewrite length_app; simpl; lia).
  rewrite tupleLoop_cons, fmap_cons,
    (cons_middle (tupleArgsOf q) args (tupleArgsOf <$> qs)), (assoc_L (++)).
  destruct (Nat.eqb_spec (S (List.length args)) BATCHSIZE) as [Heq|Hne].
  + rewrite Hlen, runBatchTuples_exec, run_bind_assoc,
      (execAllTuples_app fuel (args ++ [tupleArgsOf q]) (tupleArgsOf <$> qs)).
    destruct (execAllTuples fuel (args ++ [tupleArgsOf q]) st) as [st1| |];
      [|done..].
    apply (IH [] st1), BATCHSIZE_pos.
  + rewrite Hlen. apply IH. rewrite <- Hlen. lia.
Qed.

Lemma individualLoop_flush fuel qs : ∀ args st,
(List.length args < BATCHSIZE)%nat →
('(a, k, st') ← individualLoop fuel qs args (List.length args) st;
 runBatchIndividual fuel a k st')
= execAllIndividual fuel (args ++ (individualArgsOf <$> qs)) st.
Proof.
induction qs as [|q qs IH]; intros args st Hlt.
- simpl. by rewrite (right_id_L [] (++)), runBatchIndividual_exec.
- assert (S (List.length args) = List.length (args ++ [individualArgsOf q]))
    as Hlen by (rewrite length_app; simpl; lia).
  rewrite individualLoop_cons, fmap_cons,
    (cons_middle (individualArgsOf q) args (individualArgsOf <$> qs)),
    (assoc_L (++)).
  destruct (Nat.eqb_spec (S (List.length args)) BATCHSIZE) as [Heq|Hne].
  + rewrite Hlen, runBatchIndividual_exec, run_bind_assoc,
      (execAllIndividual_app fuel (args ++ [individualArgsOf q])
         (individualArgsOf <$> qs)).
    destruct (execAllIndividual fuel (args ++ [individualArgsOf q]) st)
      as [st1| |]; [|done..].
    apply (IH [] st1), BATCHSIZE_pos.
  + rewrite Hlen. apply IH. rewrite <- Hlen. lia.
Qed.

(** [Update] is one pass over the tuple rows and one over the individual
  rows, committed at the end. *)
Lemma Update_unfold fuel db ar :
Update fuel db ar =
  match
    execAllTuples fuel (tupleArgsOf <$> Tuples ar) (BeginTx db)
      ≫= execAllIndividual fuel (individualArgsOf <$> Individual ar)
  with
  | Done st => Returned (result st) None (work st)
  | Raise => Exited db
  | Spin => Hangs
  end.
Proof.
unfold Update.
pose proof (tupleLoop_flush fuel (Tuples ar) [] (BeginTx db)) as Ht.
simpl in Ht. rewrite <- Ht by apply BATCHSIZE_pos. clear Ht.
destruct (tupleLoop fuel (Tuples ar) [] 0 (BeginTx db))
  as [[[a k] st]| |]; [|done..].
simpl. destruct (runBatchTuples fuel a k st) as [st1| |]; [|done..]. simpl.
pose proof (individualLoop_flush fuel (Individual ar) [] st1) as Hi.
simpl in Hi. rewrite <- Hi by apply BATCHSIZE_pos. clear Hi.
destruct (individualLoop fuel (Individual ar) [] 0 st1)
  as [[[a' k'] st2]| |]; [|done..].
simpl. by destruct (runBatchIndividual fuel a' k' st2).
Qed.

End store_facts.

Section store_claims.
Context `{Externals}.

(** ** What ends up in the tables *)

Lemma execTupleCalls_dom fuel rows : ∀ T codes T',
  execTupleCalls fuel rows T = Done (codes, T') →
  dom T' = dom T ∪ list_to_set (tupleKey <$> rows).
Proof.
  induction rows as [|a rows IH]; intros T codes T'; simpl.
  - intros [= _ <-]. by rewrite (right_id_L ∅ (∪)).
  - destruct (int4_in (ta_ttl a)) as [ttv|]; [|done].
    destruct (int4_ok (ta_count a)); [|done].
    destruct (update_tuples _ _ _ _ _ _ _ _ _) as [[ch T1]| |] eqn:Hcall;
      [|done..].
    simpl. destruct (execTupleCalls fuel rows T1) as [[c1 T2]| |] eqn:Hrest;
      [|done..].
    simpl. intros [= _ <-]. rewrite (IH _ _ _ Hrest).
    rewrite (update_tuples_dom _ _ _ _ _ _ _ _ _ _ _ Hcall).
    unfold tupleKey at 2. by rewrite (assoc_L (∪)).
Qed.

Lemma execIndividualCalls_dom fuel rows : ∀ T codes T',
  execIndividualCalls fuel rows T = Done (codes, T') →
  dom T' = dom T ∪ list_to_set (individualKey <$> rows).
Proof.
  induction rows as [|a rows IH]; intros T codes T'; simpl.
  - intros [= _ <-]. by rewrite (right_id_L ∅ (∪)).
  - destruct (int4_ok (ia_count a)); [|done].
    destruct (update_individual _ _ _ _ _ _ _) as [[ch T1]| |] eqn:Hcall;
      [|done..].
    simpl. destruct (execIndividualCalls fuel rows T1) as [[c1 T2]| |] eqn:Hrest;
      [|done..].
    simpl. intros [= _ <-]. rewrite (IH _ _ _ Hrest).
    rewrite (update_individual_dom _ _ _ _ _ _ _ _ _ Hcall).
    unfold individualKey at 2. by rewrite (assoc_L (∪)).
Qed.

(** C9.  Whenever [Update] returns, the keys of the [tuples] table are the
    old ones and, for every tuple of the snapshot, its key with the query
    reversed and type and answer as they are; the keys of the [individual]
    table are the old ones and, for every individual of the snapshot, its
    value reversed when its role is "Q" and as it is otherwise. *)
Theorem Update_stores_queries_reversed (fuel : nat) (db : database)
    (ar : aggregationResult) (res : UpdateResult) (err : option string)
    (db' : database) :
  Update fuel db ar = Returned res err db' →
  dom (tuples db') =
    dom (tuples db)
    ∪ list_to_set
        ((λ q, (Reverse (ut_query q.1), ut_qtype q.1, ut_answer q.1))
           <$> Tuples ar)
  ∧ dom (individual db') =
    dom (individual db)
    ∪ list_to_set
        ((λ q, (which q.1,
                if String.eqb (which q.1) "Q"
                then Reverse (value q.1) else value q.1))
           <$> Individual ar).
Proof.
  rewrite Update_unfold. unfold execAllTuples at 1.
  destruct (execTupleCalls _ _ _) as [[c1 T1]| |] eqn:Ht; [|done..]. simpl.
  unfold execAllIndividual. simpl.
  destruct (execIndividualCalls _ _ _) as [[c2 T2]| |] eqn:Hi; [|done..]. simpl.
  intros [= _ _ <-]. simpl.
  apply execTupleCalls_dom in Ht. apply execIndividualCalls_dom in Hi.
  rewrite Ht, Hi, <- !list_fmap_compose. done.
Qed.
End store_claims.

Lemma Update_stores_queries_reversed_witness :
  @Update sampleExternals 1 emptyDB snapshotR123
    = Returned (returned (@Update sampleExternals 1 emptyDB snapshotR123)) None
        (committed (@Update sampleExternals 1 emptyDB snapshotR123))
  ∧ dom (tuples (committed (@Update sampleExternals 1 emptyDB snapshotR123)))
    = dom (tuples emptyDB)
      ∪ list_to_set
          ((λ q, (reverseString (ut_query q.1), ut_qtype q.1, ut_answer q.1))
             <$> Tuples snapshotR123)
  ∧ ("moc.elpmaxe.www", "A", "1.1.1.1")
      ∈ dom (tuples (committed (@Update sampleExternals 1 emptyDB snapshotR123)))
  ∧ ("Q", "moc.elpmaxe.www")
      ∈ dom (individual (committed (@Update sampleExternals 1 emptyDB snapshotR123)))
  ∧ ("A", "1.1.1.1")
      ∈ dom (individual (committed (@Update sampleExternals 1 emptyDB snapshotR123))).
Proof.
  assert (@Update sampleExternals 1 emptyDB snapshotR123
          = Returned (returned (@Update sampleExternals 1 emptyDB snapshotR123))
              None
              (committed (@Update sampleExternals 1 emptyDB snapshotR123)))
    as Hrun by (vm_compute; reflexivity).
  destruct (@Update_stores_queries_reversed sampleExternals 1 emptyDB
              snapshotR123 _ _ _ Hrun) as [Ht Hi].
  split_and!; [exact Hrun|exact Ht|..].
  - rewrite Ht. vm_compute Tuples. set_solver.
  - rewrite Hi. vm_compute Individual. set_solver.
  - rewrite Hi. vm_compute Individual. set_solver.
Defined.

(** ** The upsert against the combine rule of [Merge] *)


Section upsert_claims.
Context `{Externals}.


End upsert_claims.


(** ** Failing batches *)

Section failure_claims.
Context `{Externals}.






End failure_claims.



(** * [Close] *)

(** C10.  However many steps the call of [Close] is run for, it has not
    returned, the connection is as released as it was before the call, and
    one more frame of [Close] is on the stack at every step. *)
Theorem Close_never_returns_nor_releases (s : PGStore) (n : nat) :
  cl_returned (Nat.iter n Close_step (Close_call s)) = None
  ∧ conn_released (cl_store (Nat.iter n Close_step (Close_call s)))
    = conn_released s
  ∧ cl_frames (Nat.iter n Close_step (Close_call s)) = S n.
Proof.
  induction n as [|n (Hr & Hc & Hf)]; [done|].
  simpl. unfold Close_step at 1 3 5. rewrite Hr. simpl. by rewrite Hf.
Qed.

(** * Further properties of aggregate.go *)

(** ** [stripDecimal] *)

Lemma index_dot_split s n :
  String.index 0 "." s = Some n →
  ∃ i f, s = i +:+ String "." f ∧ String.length i = n
         ∧ String.index 0 "." i = None.
Proof.
  revert n. induction s as [|c s IH]; intros n; [done|].
  rewrite index_dot_cons. case_decide as Hc.
  - intros [= <-]. exists "", s. by subst c.
  - destruct (String.index 0 "." s) as [m|] eqn:Hs; [|done].
    intros [= <-]. destruct (IH m eq_refl) as (i & f & -> & Hlen & Hi).
    exists (String c i), f. split_and!; [done|simpl; congruence|].
    rewrite index_dot_cons, decide_False, Hi by done. done.
Qed.

Lemma append_empty_r s : s +:+ "" = s.
Proof.
  induction s as [|c s IH]; [done|].
  change (String c s +:+ "") with (String c (s +:+ "")). by rewrite IH.
Qed.

(** X1.  What [stripDecimal] returns never contains a ".".  On "-" it is "0";
    on any other string it is a prefix of the argument, and what it leaves out
    is either nothing or starts with the first "." of the argument. *)
Theorem stripDecimal_result (v : string) :
  String.index 0 "." (stripDecimal v) = None
  ∧ (v = "-" ∧ stripDecimal v = "0"
     ∨ v ≠ "-"
       ∧ ∃ rest, v = stripDecimal v +:+ rest
                 ∧ (rest = "" ∨ ∃ r, rest = String "." r)).
Proof.
  unfold stripDecimal. destruct (String.eqb_spec v "-") as [->|Hne].
  { split; [done|by left]. }
  destruct (String.index 0 "." v) as [n|] eqn:Hv.
  - destruct (index_dot_split v n Hv) as (i & f & -> & <- & Hi).
    rewrite substring_append_l. split; [done|right]. split; [done|].
    exists (String "." f). eauto.
  - split; [done|right]. split; [done|]. exists "". split; [|by left].
    by rewrite append_empty_r.
Qed.

(** ** [AddRecord]: when it panics, what it counts *)

Lemma len_sentinel : (MAX_SANE_VALUE_LEN <? len "-") = false.
Proof. reflexivity. Qed.

Lemma answersLoop_panics r rest : ∀ idx h d,
  answersLoop r idx rest h d = None ↔
  ∃ i answer,
    rest !! i = Some answer ∧ answer ≠ "-" ∧ ttls r !! (idx + i)%nat = None
    ∧ ∀ j a, (j ≤ i)%nat → rest !! j = Some a → len a ≤ MAX_SANE_VALUE_LEN.
Proof.
  induction rest as [|answer rest IH]; intros idx h d; simpl.
  { split; [done|]. by intros (i & a & Hi & _). }
  destruct (Z.ltb_spec MAX_SANE_VALUE_LEN (len answer)) as [Hbig|Hsane].
  { split; [done|]. intros (i & a & _ & _ & _ & Hall).
    specialize (Hall 0%nat answer ltac:(lia) eq_refl). lia. }
  assert (∀ i,
    (∀ j a', (j ≤ S i)%nat → (answer :: rest) !! j = Some a' →
             len a' ≤ MAX_SANE_VALUE_LEN)
    ↔ (∀ j a', (j ≤ i)%nat → rest !! j = Some a' →
               len a' ≤ MAX_SANE_VALUE_LEN)) as Hshift.
  { intros i. split.
    - intros Hall j a' Hj Hl. apply (Hall (S j) a'); [lia|done].
    - intros Hall [|j] a' Hj Hl; simpl in Hl; [by injection Hl as <-|].
      eapply (Hall j); [lia|done]. }
  destruct (String.eqb_spec answer "-") as [->|Hne].
  { rewrite IH. split.
    - intros (i & a & Hi & Ha & Ht & Hall). exists (S i), a.
      rewrite Nat.add_succ_r. split_and!; try done. by apply (Hshift i).
    - intros ([|i] & a & Hi & Ha & Ht & Hall); simpl in Hi; [congruence|].
      exists i, a. rewrite Nat.add_succ_r in Ht.
      split_and!; try done. by apply (Hshift i). }
  destruct (ttls r !! idx) as [t|] eqn:Ht.
  - destruct (upsert h (queries d) _ _ _) as [h1 qs].
    destruct (upsert h1 (values d) _ _ _) as [h2 vs].
    rewrite IH. split.
    + intros (i & a & Hi & Ha & Hti & Hall). exists (S i), a.
      rewrite Nat.add_succ_r. split_and!; try done. by apply (Hshift i).
    + intros ([|i] & a & Hi & Ha & Hti & Hall); simpl in Hi.
      { rewrite Nat.add_0_r in Hti. congruence. }
      exists i, a. rewrite Nat.add_succ_r in Hti.
      split_and!; try done. by apply (Hshift i).
  - split; [intros _|done]. exists 0%nat, answer. rewrite Nat.add_0_r.
    split_and!; try done. intros [|j] a Hj Hl; [|lia]. by injection Hl as <-.
Qed.

(** X2.  [AddRecord] panics exactly when the query is of sane length and the
    loop reaches an answer that is no sentinel and has no TTL at its index:
    an answer slot with every answer up to it of sane length.  Sentinel
    answers, and what follows an oversized answer, need no TTL. *)
Theorem AddRecord_panics_iff (h : heap) (d : DNSAggregator) (r : DNSRecord) :
  AddRecord h d r = None ↔
  len (query r) ≤ MAX_SANE_VALUE_LEN
  ∧ ∃ idx answer,
      answers r !! idx = Some answer ∧ answer ≠ "-" ∧ ttls r !! idx = None
      ∧ ∀ j a, (j ≤ idx)%nat → answers r !! j = Some a →
               len a ≤ MAX_SANE_VALUE_LEN.
Proof.
  unfold AddRecord.
  destruct (Z.ltb_spec MAX_SANE_VALUE_LEN (len (query r))) as [Hbig|Hsane].
  { split; [done|]. intros [? _]. lia. }
  destruct (upsert h _ _ _ _) as [h1 vs].
  rewrite answersLoop_panics. simpl. split; [by split|by intros [_ ?]].
Qed.

Lemma answersLoop_counters r rest : ∀ idx h d h' d',
  answersLoop r idx rest h d = Some (h', d') →
  totalRecords d' = totalRecords d
  ∧ skippedRecords d' =
      if existsb (λ a, MAX_SANE_VALUE_LEN <? len a) rest
      then uint_add (skippedRecords d) 1 else skippedRecords d.
Proof.
  induction rest as [|answer rest IH]; intros idx h d h' d' Hrun; simpl in *.
  { by injection Hrun as <- <-. }
  destruct (MAX_SANE_VALUE_LEN <? len answer); simpl.
  { by injection Hrun as <- <-. }
  destruct (String.eqb answer "-"); [by eapply IH|].
  destruct (ttls r !! idx) as [t|]; [|done].
  destruct (upsert h (queries d) _ _ _) as [h1 qs].
  destruct (upsert h1 (values d) _ _ _) as [h2 vs].
  by apply IH in Hrun.
Qed.

(** X3.  What a call of [AddRecord] that returns does to the two counters:
    the total goes up by one unless the query is oversized, and the skip
    counter goes up by one when the query or some answer is oversized, so a
    record with an oversized answer is counted in both. *)
Theorem AddRecord_counters (h : heap) (d : DNSAggregator) (r : DNSRecord)
    (h' : heap) (d' : DNSAggregator) :
  AddRecord h d r = Some (h', d') →
  totalRecords d' =
    (if MAX_SANE_VALUE_LEN <? len (query r) then totalRecords d
     else uint_add (totalRecords d) 1)
  ∧ skippedRecords d' =
    (if (MAX_SANE_VALUE_LEN <? len (query r))
        || existsb (λ a, MAX_SANE_VALUE_LEN <? len a) (answers r)
     then uint_add (skippedRecords d) 1 else skippedRecords d).
Proof.
  unfold AddRecord. destruct (MAX_SANE_VALUE_LEN <? len (query r)); simpl.
  { by intros [= <- <-]. }
  destruct (upsert h _ _ _ _) as [h1 vs]. intros Hrun.
  by apply answersLoop_counters in Hrun.
Qed.

Lemma AddRecord_counters_witness :
  AddRecord [] NewDNSAggregator Rlong = Some (build [] [Rlong])
  ∧ totalRecords (build [] [Rlong]).2 =
      (if MAX_SANE_VALUE_LEN <? len (query Rlong)
       then totalRecords NewDNSAggregator
       else uint_add (totalRecords NewDNSAggregator) 1)
  ∧ skippedRecords (build [] [Rlong]).2 =
      (if (MAX_SANE_VALUE_LEN <? len (query Rlong))
          || existsb (λ a, MAX_SANE_VALUE_LEN <? len a) (answers Rlong)
       then uint_add (skippedRecords NewDNSAggregator) 1
       else skippedRecords NewDNSAggregator).
Proof.
  assert (AddRecord [] NewDNSAggregator Rlong = Some (build [] [Rlong])) as Hrun
    by (vm_compute; reflexivity).
  split; [exact Hrun|].
  exact (AddRecord_counters [] NewDNSAggregator Rlong
           (build [] [Rlong]).1 (build [] [Rlong]).2 Hrun).
Defined.

(** ** [AddRecord]: sentinel slots *)

Lemma answersLoop_shift rest : ∀ idx idx' r r' h d,
  ts r = ts r' → query r = query r' → qtype r = qtype r' →
  (∀ i, (i < List.length rest)%nat →
        ttls r !! (idx + i)%nat = ttls r' !! (idx' + i)%nat) →
  answersLoop r idx rest h d = answersLoop r' idx' rest h d.
Proof.
  induction rest as [|answer rest IH]; intros idx idx' r r' h d Hts Hq Hty Ht;
    simpl; [done|].
  destruct (MAX_SANE_VALUE_LEN <? len answer); [done|].
  assert (∀ i, (i < List.length rest)%nat →
               ttls r !! (S idx + i)%nat = ttls r' !! (S idx' + i)%nat) as Ht'.
  { intros i Hi. specialize (Ht (S i)). rewrite !Nat.add_succ_r in Ht.
    apply Ht. simpl. lia. }
  destruct (String.eqb answer "-"); [by apply IH|].
  specialize (Ht 0%nat). rewrite !Nat.add_0_r in Ht.
  rewrite <- Ht by (simpl; lia). rewrite <- Hts, <- Hq, <- Hty.
  destruct (ttls r !! idx) as [t|]; [|done].
  destruct (upsert h (queries d) _ _ _) as [h1 qs].
  destruct (upsert h1 (values d) _ _ _) as [h2 vs]. by apply IH.
Qed.

Lemma answersLoop_drop_sentinel a1 a2 : ∀ idx r r' h d,
  ts r = ts r' → query r = query r' → qtype r = qtype r' →
  (∀ i, (i < List.length a1)%nat →
        ttls r !! (idx + i)%nat = ttls r' !! (idx + i)%nat) →
  (∀ i, (i < List.length a2)%nat →
        ttls r !! (idx + List.length a1 + 1 + i)%nat
        = ttls r' !! (idx + List.length a1 + i)%nat) →
  answersLoop r idx (a1 ++ "-" :: a2) h d = answersLoop r' idx (a1 ++ a2) h d.
Proof.
  induction a1 as [|answer a1 IH]; intros idx r r' h d Hts Hq Hty H1 H2.
  - change (answersLoop r idx ([] ++ "-" :: a2) h d)
      with (answersLoop r (S idx) a2 h d).
    simpl. apply answersLoop_shift; try done.
    intros i Hi. specialize (H2 i Hi). simpl in H2.
    by rewrite Nat.add_0_r, Nat.add_1_r in H2.
  - simpl. destruct (MAX_SANE_VALUE_LEN <? len answer); [done|].
    assert (answersLoop r (S idx) (a1 ++ "-" :: a2) h d
            = answersLoop r' (S idx) (a1 ++ a2) h d) as Hrest_same.
    { apply IH; try done.
      - intros i Hi. specialize (H1 (S i)). rewrite !Nat.add_succ_r in H1.
        apply H1. simpl. lia.
      - intros i Hi. specialize (H2 i Hi).
        change (List.length (answer :: a1)) with (S (List.length a1)) in H2.
        replace (S idx + List.length a1 + 1 + i)%nat
          with (idx + S (List.length a1) + 1 + i)%nat by lia.
        replace (S idx + List.length a1 + i)%nat
          with (idx + S (List.length a1) + i)%nat by lia. done. }
    destruct (String.eqb answer "-"); [done|].
    pose proof (H1 0%nat) as H0. rewrite !Nat.add_0_r in H0.
    rewrite <- H0 by (simpl; lia). rewrite <- Hts, <- Hq, <- Hty.
    destruct (ttls r !! idx) as [t|]; [|done].
    destruct (upsert h (queries d) _ _ _) as [h1 qs].
    destruct (upsert h1 (values d) _ _ _) as [h2 vs].
    apply IH; try done.
    + intros i Hi. specialize (H1 (S i)). rewrite !Nat.add_succ_r in H1.
      apply H1. simpl. lia.
    + intros i Hi. specialize (H2 i Hi).
      change (List.length (answer :: a1)) with (S (List.length a1)) in H2.
      replace (S idx + List.length a1 + 1 + i)%nat
        with (idx + S (List.length a1) + 1 + i)%nat by lia.
      replace (S idx + List.length a1 + i)%nat
        with (idx + S (List.length a1) + i)%nat by lia. done.
Qed.

(** X4.  A sentinel answer slot counts for nothing: a record gives the same
    result with or without a slot whose answer is "-", whatever the TTL of
    that slot, when the answers before the slot and the TTLs before its TTL
    are equally many. *)
Theorem AddRecord_ignores_sentinel_slot (h : heap) (d : DNSAggregator)
    (r : DNSRecord) (a1 a2 t1 t2 : list string) (t : string) :
  List.length a1 = List.length t1 →
  AddRecord h d (withSlots r (a1 ++ "-" :: a2) (t1 ++ t :: t2))
  = AddRecord h d (withSlots r (a1 ++ a2) (t1 ++ t2)).
Proof.
  intros Hlen. unfold AddRecord. simpl.
  destruct (MAX_SANE_VALUE_LEN <? len (query r)); [done|].
  destruct (upsert h _ _ _ _) as [h1 vs].
  apply answersLoop_drop_sentinel; try done; simpl.
  - intros i Hi. rewrite !lookup_app_l by lia. done.
  - intros i Hi. rewrite Hlen.
    rewrite <- (Nat.add_assoc (List.length t1) 1 i).
    rewrite !lookup_app_r by lia.
    replace (List.length t1 + (1 + i) - List.length t1)%nat with (S i) by lia.
    replace (List.length t1 + i - List.length t1)%nat with i by lia. done.
Qed.

Lemma AddRecord_ignores_sentinel_slot_witness :
  List.length ["1.1.1.1"] = List.length ["300"]
  ∧ AddRecord [] NewDNSAggregator
      (withSlots R1 (["1.1.1.1"] ++ "-" :: ["2.2.2.2"])
         (["300"] ++ "junk" :: ["60"]))
    = AddRecord [] NewDNSAggregator
        (withSlots R1 (["1.1.1.1"] ++ ["2.2.2.2"]) (["300"] ++ ["60"])).
Proof.
  split; [reflexivity|].
  exact (AddRecord_ignores_sentinel_slot [] NewDNSAggregator R1
           ["1.1.1.1"] ["2.2.2.2"] ["300"] ["60"] "junk" eq_refl).
Defined.

(** ** [AddRecord]: the statistic of a key after a run *)

Section touch_folds.
Context {K : Type} `{Countable K}.

Lemma foldl_touch_lookup (key : string → K) (t : Z) (us : list (string * string)) :
  ∀ (m : gmap K queryStat) k,
  foldl (λ m u, touch m (key u.1) (firstSeen t (stripDecimal u.2))
                  (seenAgainTTL t (stripDecimal u.2))) m us !! k
  = replay (m !! k) (hitsOf k ((λ u, (key u.1, (t, u.2))) <$> us)).
Proof.
  induction us as [|u us IH]; intros m k; [done|].
  simpl. rewrite IH. unfold replay, hitsOf. simpl.
  destruct (decide (key u.1 = k)) as [<-|Hne].
  - rewrite filter_cons_True by done. simpl. by rewrite touch_lookup_eq.
  - rewrite filter_cons_False by done. by rewrite touch_lookup_ne.
Qed.

End touch_folds.

Lemma answersLoopV_fold r rest : ∀ idx a a',
  answersLoopV r idx rest a = Some a' →
  vqueries a' =
    foldl (λ m u, touch m {| ut_query := query r; ut_answer := u.1;
                             ut_qtype := qtype r |}
                    (firstSeen (ts r) (stripDecimal u.2))
                    (seenAgainTTL (ts r) (stripDecimal u.2)))
      (vqueries a) (appliedSlots r idx rest)
  ∧ vvalues a' =
    foldl (λ m u, touch m {| value := u.1; which := "A" |}
                    (firstSeen (ts r) (stripDecimal u.2))
                    (seenAgainTTL (ts r) (stripDecimal u.2)))
      (vvalues a) (appliedSlots r idx rest).
Proof.
  induction rest as [|answer rest IH]; intros idx a a' Hrun; simpl in *.
  { by injection Hrun as <-. }
  destruct (MAX_SANE_VALUE_LEN <? len answer).
  { by injection Hrun as <-. }
  destruct (String.eqb answer "-"); [by eapply IH|].
  destruct (ttls r !! idx) as [t|]; [|done].
  apply IH in Hrun as [-> ->]. done.
Qed.

Lemma hitsOf_app {K} `{EqDecision K} (k : K) (e1 e2 : list (K * (Z * string))) :
  hitsOf k (e1 ++ e2) = hitsOf k e1 ++ hitsOf k e2.
Proof. unfold hitsOf. by rewrite filter_app, fmap_app. Qed.

Lemma tupleEvents_cons r rs :
  tupleEvents (r :: rs) = tupleEvents [r] ++ tupleEvents rs.
Proof. unfold tupleEvents. simpl. by rewrite app_nil_r. Qed.

Lemma answerEvents_cons r rs :
  answerEvents (r :: rs) = answerEvents [r] ++ answerEvents rs.
Proof. unfold answerEvents. simpl. by rewrite app_nil_r. Qed.

Lemma replay_app s h1 h2 : replay s (h1 ++ h2) = replay (replay s h1) h2.
Proof. apply foldl_app. Qed.

Lemma AddRecordV_replay a r a' :
  AddRecordV a r = Some a' →
  (∀ q, vqueries a' !! q = replay (vqueries a !! q) (hitsOf q (tupleEvents [r])))
  ∧ (∀ x, vvalues a' !! {| value := x; which := "A" |}
          = replay (vvalues a !! {| value := x; which := "A" |})
              (hitsOf {| value := x; which := "A" |} (answerEvents [r]))).
Proof.
  unfold AddRecordV, tupleEvents, answerEvents, recordSlots. simpl.
  rewrite !app_nil_r.
  destruct (MAX_SANE_VALUE_LEN <? len (query r)).
  { intros [= <-]. done. }
  intros Hrun. apply answersLoopV_fold in Hrun as [Hq Hv]. split.
  - intros q. rewrite Hq. simpl.
    apply (foldl_touch_lookup
             (λ a0, {| ut_query := query r; ut_answer := a0; ut_qtype := qtype r |})).
  - intros x. rewrite Hv. simpl.
    rewrite (foldl_touch_lookup (λ a0, {| value := a0; which := "A" |})).
    by rewrite touch_lookup_ne.
Qed.

Lemma AddRecordsV_replay rs : ∀ a a',
  foldl (λ a r, a ≫= (λ a, AddRecordV a r)) (Some a) rs = Some a' →
  (∀ q, vqueries a' !! q = replay (vqueries a !! q) (hitsOf q (tupleEvents rs)))
  ∧ (∀ x, vvalues a' !! {| value := x; which := "A" |}
          = replay (vvalues a !! {| value := x; which := "A" |})
              (hitsOf {| value := x; which := "A" |} (answerEvents rs))).
Proof.
  induction rs as [|r rs IH]; intros a a' Hrun.
  { injection Hrun as <-. done. }
  simpl in Hrun. destruct (AddRecordV a r) as [a1|] eqn:Hr; simpl in Hrun.
  - apply IH in Hrun as [Hq Hv]. apply AddRecordV_replay in Hr as [Hq1 Hv1].
    rewrite tupleEvents_cons, answerEvents_cons. split.
    + intros q. by rewrite Hq, Hq1, hitsOf_app, replay_app.
    + intros x. by rewrite Hv, Hv1, hitsOf_app, replay_app.
  - exfalso. clear -Hrun. induction rs as [|r' rs IH]; [done|]. by apply IH.
Qed.

Lemma replay_closed s hits e :
  list.last hits = Some e →
  ∃ s', replay s hits = Some s'
    ∧ count s' = (from_option count 0 s + Z.of_nat (List.length hits))
                   `mod` uint_modulus
    ∧ last s' = e.1
    ∧ ttl s' = stripDecimal e.2
    ∧ first s' = from_option first (default e.1 (fst <$> head hits)) s.
Proof.
  revert e. induction hits as [|e' hits IH] using rev_ind; intros e He; [done|].
  rewrite last_snoc in He. injection He as ->.
  rewrite replay_app. simpl.
  destruct (list.last hits) as [e0|] eqn:Hlast.
  - destruct (IH e0 eq_refl) as (s1 & -> & Hc & _ & _ & Hf).
    eexists. split; [done|]. simpl. rewrite Hc, length_app. simpl.
    split_and!; try done.
    + unfold uint_add. rewrite Zplus_mod_idemp_l. f_equal. lia.
    + rewrite Hf. destruct hits; [done|]. done.
  - apply last_None in Hlast as ->. simpl. destruct s as [s0|]; simpl.
    + eexists. split; [done|]. simpl. done.
    + eexists. split; [done|]. simpl. done.
Qed.

(** X5.  The statistic of a tuple key, and of an Answer key, after a run of
    [AddRecord]s that returns.  A key the run does not update keeps what it
    had.  A key it updates has: as count the old count (0 for a new key) plus
    the number of updates, modulo 2^64; as [last] the timestamp of the last
    update; as [ttl] the normalized TTL of the last update; as [first] what
    it had, or for a new key the timestamp of the first update. *)
Theorem AddRecords_statistic_of_key (h : heap) (d : DNSAggregator)
    (rs : list DNSRecord) (st' : heap * DNSAggregator) :
  wf h d →
  AddRecords h d rs = Some st' →
  (∀ q,
     match list.last (hitsOf q (tupleEvents rs)) with
     | None => tupleStat st' q = tupleStat (h, d) q
     | Some e =>
         ∃ s', tupleStat st' q = Some s'
           ∧ count s' =
               (from_option count 0 (tupleStat (h, d) q)
                + Z.of_nat (List.length (hitsOf q (tupleEvents rs))))
               `mod` uint_modulus
           ∧ last s' = e.1
           ∧ ttl s' = stripDecimal e.2
           ∧ first s' =
               from_option first
                 (default e.1 (fst <$> head (hitsOf q (tupleEvents rs))))
                 (tupleStat (h, d) q)
     end)
  ∧ (∀ x,
     match list.last (hitsOf {| value := x; which := "A" |} (answerEvents rs)) with
     | None => valueStat st' {| value := x; which := "A" |}
               = valueStat (h, d) {| value := x; which := "A" |}
     | Some e =>
         ∃ s', valueStat st' {| value := x; which := "A" |} = Some s'
           ∧ count s' =
               (from_option count 0 (valueStat (h, d) {| value := x; which := "A" |})
                + Z.of_nat (List.length
                    (hitsOf {| value := x; which := "A" |} (answerEvents rs))))
               `mod` uint_modulus
           ∧ last s' = e.1
           ∧ ttl s' = stripDecimal e.2
           ∧ first s' =
               from_option first
                 (default e.1
                    (fst <$> head (hitsOf {| value := x; which := "A" |}
                                     (answerEvents rs))))
                 (valueStat (h, d) {| value := x; which := "A" |})
     end).
Proof.
  intros Hwf Hrun. pose proof (AddRecords_sim rs h d Hwf) as Hsim.
  rewrite Hrun in Hsim. destruct st' as [h' d']. destruct Hsim as (Hsim & _).
  apply AddRecordsV_replay in Hsim as [Hq Hv]. split.
  - intros q. unfold tupleStat. simpl. specialize (Hq q). simpl in Hq.
    rewrite Hq.
    destruct (list.last (hitsOf q (tupleEvents rs))) as [e|] eqn:Hlast.
    + by apply replay_closed.
    + apply last_None in Hlast. by rewrite Hlast.
  - intros x. unfold valueStat. simpl. specialize (Hv x). simpl in Hv.
    rewrite Hv.
    destruct (list.last (hitsOf _ (answerEvents rs))) as [e|] eqn:Hlast.
    + by apply replay_closed.
    + apply last_None in Hlast. by rewrite Hlast.
Qed.

Lemma AddRecords_statistic_of_key_witness :
  wf [] NewDNSAggregator
  ∧ AddRecords [] NewDNSAggregator [T300; T60] = Some (build [] [T300; T60])
  ∧ (∃ s', tupleStat (build [] [T300; T60]) keyT = Some s'
       ∧ count s' = 2 ∧ last s' = 2 ∧ ttl s' = "60" ∧ first s' = 1)
  ∧ tupleStat (build [] [T300; T60])
      {| ut_query := "example.org"; ut_answer := "192.0.2.2"; ut_qtype := "A" |}
    = tupleStat ([], NewDNSAggregator)
        {| ut_query := "example.org"; ut_answer := "192.0.2.2"; ut_qtype := "A" |}.
Proof.
  assert (AddRecords [] NewDNSAggregator [T300; T60]
          = Some (build [] [T300; T60])) as Hrun by (vm_compute; reflexivity).
  pose proof (AddRecords_statistic_of_key [] NewDNSAggregator [T300; T60] _
                (wf_new []) Hrun) as [Hq _].
  split; [apply wf_new|]. split; [exact Hrun|]. split.
  - exact (Hq keyT).
  - exact (Hq {| ut_query := "example.org"; ut_answer := "192.0.2.2";
                 ut_qtype := "A" |}).
Defined.

Lemma AddRecordV_replayQuery a r a' x :
  AddRecordV a r = Some a' →
  vvalues a' !! {| value := x; which := "Q" |}
  = replayQuery (vvalues a !! {| value := x; which := "Q" |}) (queryHits x [r]).
Proof.
  unfold AddRecordV, queryHits.
  destruct (Z.ltb_spec MAX_SANE_VALUE_LEN (len (query r))) as [Hbig|Hsane].
  { intros [= <-]. rewrite filter_cons_False by (intros [_ ?]; lia). done. }
  intros Hrun. apply answersLoopV_query_keys with (x := x) in Hrun.
  rewrite Hrun. simpl. destruct (decide (query r = x)) as [<-|Hne].
  - rewrite filter_cons_True by done. simpl. by rewrite touch_lookup_eq.
  - rewrite filter_cons_False by (by intros [? _]).
    rewrite touch_lookup_ne by congruence. done.
Qed.

Lemma AddRecordsV_replayQuery x rs : ∀ a a',
  foldl (λ a r, a ≫= (λ a, AddRecordV a r)) (Some a) rs = Some a' →
  vvalues a' !! {| value := x; which := "Q" |}
  = replayQuery (vvalues a !! {| value := x; which := "Q" |}) (queryHits x rs).
Proof.
  induction rs as [|r rs IH]; intros a a' Hrun.
  { injection Hrun as <-. done. }
  simpl in Hrun. destruct (AddRecordV a r) as [a1|] eqn:Hr; simpl in Hrun.
  - apply IH in Hrun. apply AddRecordV_replayQuery with (x := x) in Hr.
    rewrite Hrun, Hr. unfold queryHits.
    change (r :: rs) with ([r] ++ rs). rewrite filter_app, fmap_app.
    unfold replayQuery. by rewrite foldl_app.
  - exfalso. clear -Hrun. induction rs as [|r' rs IH]; [done|]. by apply IH.
Qed.

Lemma replayQuery_closed s hits t :
  list.last hits = Some t →
  ∃ s', replayQuery s hits = Some s'
    ∧ count s' = (from_option count 0 s + Z.of_nat (List.length hits))
                   `mod` uint_modulus
    ∧ last s' = t
    ∧ ttl s' = from_option ttl "" s
    ∧ first s' = from_option first (default t (head hits)) s.
Proof.
  revert t. induction hits as [|t' hits IH] using rev_ind; intros t Ht; [done|].
  rewrite last_snoc in Ht. injection Ht as ->.
  unfold replayQuery. rewrite foldl_app. fold (replayQuery s hits). simpl.
  destruct (list.last hits) as [t0|] eqn:Hlast.
  - destruct (IH t0 eq_refl) as (s1 & -> & Hc & _ & Ht & Hf).
    eexists. split; [done|]. simpl. rewrite Hc, length_app. simpl.
    split_and!; try done.
    + unfold uint_add. rewrite Zplus_mod_idemp_l. f_equal. lia.
    + rewrite Hf. destruct hits; [done|]. done.
  - apply last_None in Hlast as ->. simpl. destruct s as [s0|]; simpl.
    + eexists. split; [done|]. simpl. done.
    + eexists. split; [done|]. simpl. done.
Qed.

(** X6.  The statistic of a query after a run of [AddRecord]s that returns.
    The records that reach it are those with that query, of sane length,
    whatever their answers.  With no such record the statistic is what it
    was.  Otherwise the count is the old count (0 for a new query) plus their
    number, modulo 2^64; [last] is the timestamp of the last of them, be it
    the greatest or not; [first] and [ttl] are what they were, and for a new
    query the timestamp of the first of them and the empty string. *)
Theorem AddRecords_statistic_of_query (h : heap) (d : DNSAggregator)
    (rs : list DNSRecord) (st' : heap * DNSAggregator) (x : string) :
  wf h d →
  AddRecords h d rs = Some st' →
  match list.last (queryHits x rs) with
  | None => valueStat st' {| value := x; which := "Q" |}
            = valueStat (h, d) {| value := x; which := "Q" |}
  | Some t =>
      ∃ s', valueStat st' {| value := x; which := "Q" |} = Some s'
        ∧ count s' =
            (from_option count 0 (valueStat (h, d) {| value := x; which := "Q" |})
             + Z.of_nat (List.length (queryHits x rs))) `mod` uint_modulus
        ∧ last s' = t
        ∧ ttl s' =
            from_option ttl "" (valueStat (h, d) {| value := x; which := "Q" |})
        ∧ first s' =
            from_option first (default t (head (queryHits x rs)))
              (valueStat (h, d) {| value := x; which := "Q" |})
  end.
Proof.
  intros Hwf Hrun. pose proof (AddRecords_sim rs h d Hwf) as Hsim.
  rewrite Hrun in Hsim. destruct st' as [h' d']. destruct Hsim as (Hsim & _).
  apply AddRecordsV_replayQuery with (x := x) in Hsim.
  unfold valueStat. simpl in *. rewrite Hsim.
  destruct (list.last (queryHits x rs)) as [t|] eqn:Hlast.
  - by apply replayQuery_closed.
  - apply last_None in Hlast. by rewrite Hlast.
Qed.

Lemma AddRecords_statistic_of_query_witness :
  wf [] NewDNSAggregator
  ∧ AddRecords [] NewDNSAggregator [R1; R2; R3] = Some (build [] [R1; R2; R3])
  ∧ ∃ s', valueStat (build [] [R1; R2; R3])
            {| value := "www.example.com"; which := "Q" |} = Some s'
      ∧ count s' = 3 ∧ last s' = 150 ∧ ttl s' = "" ∧ first s' = 100.
Proof.
  assert (AddRecords [] NewDNSAggregator [R1; R2; R3]
          = Some (build [] [R1; R2; R3])) as Hrun by (vm_compute; reflexivity).
  split; [apply wf_new|]. split; [exact Hrun|].
  exact (AddRecords_statistic_of_query [] NewDNSAggregator [R1; R2; R3] _
           "www.example.com" (wf_new []) Hrun).
Defined.

(** ** [AddRecord]: records in the order of their timestamps *)

Lemma seenBy_later t t' s : t ≤ t' → seenBy t s → seenBy t' s.
Proof. unfold seenBy. intros ? [? ?]. split; [done|lia]. Qed.

Lemma AddRecords_seenBy rs : ∀ h d st' t0,
  wf h d →
  AddRecords h d rs = Some st' →
  nondecreasing t0 rs →
  (∀ q s, tupleStat (h, d) q = Some s → seenBy t0 s) →
  (∀ v s, valueStat (h, d) v = Some s → seenBy t0 s) →
  ∃ t, (∀ q s, tupleStat st' q = Some s → seenBy t s)
       ∧ (∀ v s, valueStat st' v = Some s → seenBy t s).
Proof.
  induction rs as [|r rs IH]; intros h d st' t0 Hwf Hrun Hnd Hq Hv.
  { injection Hrun as <-. by exists t0. }
  simpl in Hrun. destruct Hnd as [Ht Hnd].
  destruct (AddRecord h d r) as [[h1 d1]|] eqn:Hr; [|done].
  pose proof (AddRecord_sim h d r Hwf) as Hsim. rewrite Hr in Hsim.
  destruct Hsim as (_ & Hwf1 & _).
  destruct (AddRecord_in_order h d r (h1, d1) Hwf Hr) as [Hq1 Hv1].
  { intros q s Hs. eapply seenBy_later; [exact Ht|]. by eapply Hq. }
  { intros v s Hs. eapply seenBy_later; [exact Ht|]. by eapply Hv. }
  by apply (IH h1 d1 st' (ts r)).
Qed.

(** X7.  Fed with records whose timestamps never go back, starting no
    earlier than the [first] of any statistic already held, [AddRecord] keeps
    [first ≤ last] on every statistic. *)
Theorem AddRecords_in_order_keeps_ordered (h : heap) (d : DNSAggregator)
    (rs : list DNSRecord) (st' : heap * DNSAggregator) (t0 : Z) :
  wf h d →
  AddRecords h d rs = Some st' →
  nondecreasing t0 rs →
  (∀ q s, tupleStat (h, d) q = Some s → seenBy t0 s) →
  (∀ v s, valueStat (h, d) v = Some s → seenBy t0 s) →
  (∀ q s, tupleStat st' q = Some s → ordered s)
  ∧ (∀ v s, valueStat st' v = Some s → ordered s).
Proof.
  intros Hwf Hrun Hnd Hq Hv.
  destruct (AddRecords_seenBy rs h d st' t0 Hwf Hrun Hnd Hq Hv) as (t & Hq' & Hv').
  split; [intros q s Hs; by destruct (Hq' q s Hs)
         |intros v s Hs; by destruct (Hv' v s Hs)].
Qed.

Lemma AddRecords_in_order_keeps_ordered_witness :
  wf [] NewDNSAggregator
  ∧ AddRecords [] NewDNSAggregator [R1; R3; R2] = Some (build [] [R1; R3; R2])
  ∧ nondecreasing 0 [R1; R3; R2]
  ∧ (∀ q s, tupleStat (build [] [R1; R3; R2]) q = Some s → ordered s)
  ∧ (∀ v s, valueStat (build [] [R1; R3; R2]) v = Some s → ordered s).
Proof.
  assert (AddRecords [] NewDNSAggregator [R1; R3; R2]
          = Some (build [] [R1; R3; R2])) as Hrun by (vm_compute; reflexivity).
  assert (nondecreasing 0 [R1; R3; R2]) as Hnd by (simpl; lia).
  split; [apply wf_new|]. split; [exact Hrun|]. split; [exact Hnd|].
  apply (AddRecords_in_order_keeps_ordered [] NewDNSAggregator [R1; R3; R2] _ 0
           (wf_new []) Hrun Hnd).
  - intros q s Hs. unfold tupleStat, view in Hs. simpl in Hs.
    rewrite fmap_empty, lookup_empty in Hs. discriminate Hs.
  - intros v s Hs. unfold valueStat, view in Hs. simpl in Hs.
    rewrite fmap_empty, lookup_empty in Hs. discriminate Hs.
Defined.

(** ** [Merge]: what it leaves alone, what it shares *)

(** X10.  [Merge] allocates nothing, leaves every statistic of [other] as it
    was, and leaves the two record counters of the receiver as they were: the
    counters of [other] are not added. *)
Theorem Merge_leaves_other_and_counters (h : heap) (d o : DNSAggregator) :
  wf h d → wf h o → sep d o →
  abs (Merge h d o).1 o = abs h o
  ∧ List.length (Merge h d o).1 = List.length h
  ∧ totalRecords (Merge h d o).2 = totalRecords d
  ∧ skippedRecords (Merge h d o).2 = skippedRecords d.
Proof.
  intros Hd Ho Hsep. destruct (Merge h d o) as [h' d'] eqn:HM.
  destruct (Merge_sim _ _ _ _ _ Hd Ho Hsep HM) as (Habs & _ & Hlen & _).
  destruct (Merge_frame _ _ _ _ _ o Hd Ho Hsep HM Ho Hsep) as [Ho' _].
  unfold abs, MergeV in Habs. simpl in Habs. injection Habs as _ _ Ht Hs.
  done.
Qed.

Lemma Merge_leaves_other_and_counters_witness :
  wf heapAD aggA ∧ wf heapAD aggD ∧ sep aggA aggD
  ∧ abs (Merge heapAD aggA aggD).1 aggD = abs heapAD aggD
  ∧ List.length (Merge heapAD aggA aggD).1 = List.length heapAD
  ∧ totalRecords (Merge heapAD aggA aggD).2 = 2
  ∧ skippedRecords (Merge heapAD aggA aggD).2 = 0.
Proof.
  assert (wf heapAD aggA) as HA by (split; compute_done).
  assert (wf heapAD aggD) as HD by (split; compute_done).
  assert (sep aggA aggD) as HAD by compute_done.
  refine (conj HA (conj HD (conj HAD _))).
  exact (Merge_leaves_other_and_counters heapAD aggA aggD HA HD HAD).
Defined.

Lemma upsert_keeps {K} `{Countable K} h (m : gmap K loc) k fresh upd h' m' q c :
  upsert h m k fresh upd = (h', m') → m !! q = Some c → m' !! q = Some c.
Proof.
  unfold upsert. destruct (m !! k) as [l|] eqn:Hk.
  - by intros [= _ <-].
  - intros [= _ <-] Hq. rewrite lookup_insert_ne; [done|congruence].
Qed.

Lemma answersLoop_keeps r rest : ∀ idx h d h' d',
  answersLoop r idx rest h d = Some (h', d') →
  (∀ q c, queries d !! q = Some c → queries d' !! q = Some c)
  ∧ (∀ v c, values d !! v = Some c → values d' !! v = Some c).
Proof.
  induction rest as [|answer rest IH]; intros idx h d h' d' Hrun; simpl in *.
  { by injection Hrun as <- <-. }
  destruct (MAX_SANE_VALUE_LEN <? len answer).
  { by injection Hrun as <- <-. }
  destruct (String.eqb answer "-"); [by eapply IH|].
  destruct (ttls r !! idx) as [t|]; [|done].
  destruct (upsert h (queries d) _ _ _) as [h1 qs] eqn:Hq.
  destruct (upsert h1 (values d) _ _ _) as [h2 vs] eqn:Hv.
  apply IH in Hrun as [IHq IHv]. simpl in *. split.
  - intros q c Hc. apply IHq. by eapply upsert_keeps.
  - intros v c Hc. apply IHv. by eapply upsert_keeps.
Qed.

Lemma AddRecord_keeps h d r h' d' :
  AddRecord h d r = Some (h', d') →
  (∀ q c, queries d !! q = Some c → queries d' !! q = Some c)
  ∧ (∀ v c, values d !! v = Some c → values d' !! v = Some c).
Proof.
  unfold AddRecord. destruct (MAX_SANE_VALUE_LEN <? len (query r)).
  { by intros [= <- <-]. }
  destruct (upsert h _ _ _ _) as [h1 vs] eqn:Hv. intros Hrun.
  apply answersLoop_keeps in Hrun as [IHq IHv]. simpl in *. split; [done|].
  intros v c Hc. apply IHv. by eapply upsert_keeps.
Qed.

Lemma AddRecords_keeps rs : ∀ h d h' d',
  AddRecords h d rs = Some (h', d') →
  (∀ q c, queries d !! q = Some c → queries d' !! q = Some c)
  ∧ (∀ v c, values d !! v = Some c → values d' !! v = Some c).
Proof.
  induction rs as [|r rs IH]; intros h d h' d' Hrun; simpl in *.
  { by injection Hrun as <- <-. }
  destruct (AddRecord h d r) as [[h1 d1]|] eqn:Hr; [|done].
  apply AddRecord_keeps in Hr as [Hq1 Hv1]. apply IH in Hrun as [Hq Hv].
  split; eauto.
Qed.

(** X11.  [Merge] adopts the cell of a key the receiver lacks instead of
    copying it ([d.queries[q] = stat]).  So whatever the receiver is fed
    afterwards, it keeps pointing to that cell, and [other] sees every update
    the receiver makes to the key: the two hold the same statistic for it. *)
Theorem Merge_shares_adopted_cells (h : heap) (d o : DNSAggregator)
    (rs : list DNSRecord) (st' : heap * DNSAggregator) :
  AddRecords (Merge h d o).1 (Merge h d o).2 rs = Some st' →
  (∀ q c, queries d !! q = None → queries o !! q = Some c →
          queries st'.2 !! q = Some c
          ∧ tupleStat (st'.1, o) q = tupleStat st' q)
  ∧ (∀ v c, values d !! v = None → values o !! v = Some c →
          values st'.2 !! v = Some c
          ∧ valueStat (st'.1, o) v = valueStat st' v).
Proof.
  intros Hrun. destruct st' as [h' d'].
  destruct (Merge_maps h d o) as [Hq Hv].
  apply AddRecords_keeps in Hrun as [Kq Kv]. split.
  - intros q c Hd Ho.
    assert (queries d' !! q = Some c) as Hc.
    { apply Kq. rewrite Hq. by rewrite lookup_union_r. }
    split; [done|]. unfold tupleStat. simpl. by rewrite !view_lookup, Hc, Ho.
  - intros v c Hd Ho.
    assert (values d' !! v = Some c) as Hc.
    { apply Kv. rewrite Hv. by rewrite lookup_union_r. }
    split; [done|]. unfold valueStat. simpl. by rewrite !view_lookup, Hc, Ho.
Qed.

Lemma Merge_shares_adopted_cells_witness :
  AddRecords (Merge (build [] [T300]).1 NewDNSAggregator aggT).1
    (Merge (build [] [T300]).1 NewDNSAggregator aggT).2 [T60]
    = Some mergedThenFed
  ∧ queries NewDNSAggregator !! keyT = None
  ∧ queries aggT !! keyT = Some 1%nat
  ∧ queries mergedThenFed.2 !! keyT = Some 1%nat
  ∧ tupleStat (mergedThenFed.1, aggT) keyT = tupleStat mergedThenFed keyT.
Proof.
  assert (AddRecords (Merge (build [] [T300]).1 NewDNSAggregator aggT).1
            (Merge (build [] [T300]).1 NewDNSAggregator aggT).2 [T60]
          = Some mergedThenFed) as Hrun by (vm_compute; reflexivity).
  assert (queries NewDNSAggregator !! keyT = None) as Hd by reflexivity.
  assert (queries aggT !! keyT = Some 1%nat) as Ho by (vm_compute; reflexivity).
  refine (conj Hrun (conj Hd (conj Ho _))).
  exact (proj1 (Merge_shares_adopted_cells (build [] [T300]).1 NewDNSAggregator
                  aggT [T60] mergedThenFed Hrun) keyT 1%nat Hd Ho).
Defined.





Lemma ordered_by_check {K} `{Countable K} (m : gmap K queryStat) :
  forallb (λ e, first e.2 <=? last e.2) (map_to_list m) = true →
  ∀ k s, m !! k = Some s → ordered s.
Proof.
  intros Hall k s Hs. apply elem_of_map_to_list in Hs.
  rewrite forallb_forall in Hall. apply list_elem_of_In in Hs.
  specialize (Hall _ Hs). simpl in Hall. unfold ordered. lia.
Qed.

Lemma Merge_any_order_witness :
  wf heapAD aggA ∧ wf heapAD aggD ∧ sep aggA aggD
  ∧ reverse (map_to_list (queries aggD)) ≡ₚ map_to_list (queries aggD)
  ∧ reverse (map_to_list (values aggD)) ≡ₚ map_to_list (values aggD)
  ∧ abs (MergeIn heapAD aggA (reverse (map_to_list (queries aggD)))
           (reverse (map_to_list (values aggD)))).1
        (MergeIn heapAD aggA (reverse (map_to_list (queries aggD)))
           (reverse (map_to_list (values aggD)))).2
    = abs (Merge heapAD aggA aggD).1 (Merge heapAD aggA aggD).2.
Proof.
  assert (wf heapAD aggA) as HA by (split; compute_done).
  assert (wf heapAD aggD) as HD by (split; compute_done).
  assert (sep aggA aggD) as HAD by compute_done.
  pose proof (reverse_Permutation (map_to_list (queries aggD))) as Hq.
  pose proof (reverse_Permutation (map_to_list (values aggD))) as Hv.
  refine (conj HA (conj HD (conj HAD (conj Hq (conj Hv _))))).
  exact (proj1 (Merge_any_order heapAD aggA aggD _ _ HA HD HAD Hq Hv)).
Defined.

Lemma Merge_preserves_ordered_witness :
  wf heapAD aggA ∧ wf heapAD aggD ∧ sep aggA aggD
  ∧ (∀ q s, tupleStat (Merge heapAD aggA aggD) q = Some s → ordered s)
  ∧ (∀ v s, valueStat (Merge heapAD aggA aggD) v = Some s → ordered s).
Proof.
  assert (wf heapAD aggA) as HA by (split; compute_done).
  assert (wf heapAD aggD) as HD by (split; compute_done).
  assert (sep aggA aggD) as HAD by compute_done.
  refine (conj HA (conj HD (conj HAD _))).
  apply (Merge_preserves_ordered heapAD aggA aggD HA HD HAD);
    apply ordered_by_check; vm_compute; reflexivity.
Defined.

(** ** [GetResult] *)

Lemma flatten_view {K} `{Countable K} (h : heap) (m : gmap K loc) :
  flatten h m ≡ₚ map_to_list (view h m).
Proof.
  unfold flatten, view. rewrite map_to_list_fmap.
  erewrite list_fmap_ext; [reflexivity|]. by intros i [k c] _.
Qed.

Lemma flatten_keys {K} `{Countable K} (h : heap) (m : gmap K loc) :
  (flatten h m).*1 = (map_to_list m).*1.
Proof.
  unfold flatten. rewrite <- list_fmap_compose. by apply list_fmap_ext.
Qed.

Lemma flatten_elem {K} `{Countable K} (h : heap) (m : gmap K loc) k s :
  (k, s) ∈ flatten h m ↔ view h m !! k = Some s.
Proof. rewrite flatten_view. apply elem_of_map_to_list. Qed.

(** X13.  The snapshot [GetResult] returns lists every key of the aggregator
    exactly once, each with the content of the cell it points to, and nothing
    else; the two lengths are the sizes of the two maps and the two counters
    are those of the aggregator. *)
Theorem GetResult_lists_every_key_once (h : heap) (d : DNSAggregator) :
  (∀ q s, (q, s) ∈ Tuples (GetResult h d) ↔ tupleStat (h, d) q = Some s)
  ∧ (∀ v s, (v, s) ∈ Individual (GetResult h d) ↔ valueStat (h, d) v = Some s)
  ∧ NoDup (Tuples (GetResult h d)).*1
  ∧ NoDup (Individual (GetResult h d)).*1
  ∧ TuplesLen (GetResult h d) = Z.of_nat (size (queries d))
  ∧ IndividualLen (GetResult h d) = Z.of_nat (size (values d))
  ∧ TotalRecords (GetResult h d) = totalRecords d
  ∧ SkippedRecords (GetResult h d) = skippedRecords d.
Proof.
  unfold GetResult, tupleStat, valueStat. simpl. split_and!; try done.
  - intros q s. apply flatten_elem.
  - intros v s. apply flatten_elem.
  - rewrite flatten_keys. apply NoDup_fst_map_to_list.
  - rewrite flatten_keys. apply NoDup_fst_map_to_list.
  - unfold flatten. by rewrite length_fmap, length_map_to_list.
  - unfold flatten. by rewrite length_fmap, length_map_to_list.
Qed.

(** ** [aggregate] *)

Lemma answersLoop_SkipRecord r rest : ∀ idx h d,
  answersLoop r idx rest h (SkipRecord d)
  = (λ s, (s.1, SkipRecord s.2)) <$> answersLoop r idx rest h d.
Proof.
  induction rest as [|answer rest IH]; intros idx h d; simpl; [done|].
  destruct (MAX_SANE_VALUE_LEN <? len answer); [done|].
  destruct (String.eqb answer "-"); [apply IH|].
  destruct (ttls r !! idx) as [t|]; [|done].
  destruct (upsert h (queries d) _ _ _) as [h1 qs].
  destruct (upsert h1 (values d) _ _ _) as [h2 vs].
  apply (IH (S idx) h2 (set_values vs (set_queries qs d))).
Qed.

Lemma AddRecord_SkipRecord h d r :
  AddRecord h (SkipRecord d) r
  = (λ s, (s.1, SkipRecord s.2)) <$> AddRecord h d r.
Proof.
  unfold AddRecord. destruct (MAX_SANE_VALUE_LEN <? len (query r)); [done|].
  simpl. destruct (upsert h (values d) _ _ _) as [h1 vs].
  apply (answersLoop_SkipRecord r (answers r) 0 h1
           (set_values vs (incr_total d))).
Qed.

Lemma AddRecords_SkipRecord rs : ∀ h d,
  AddRecords h (SkipRecord d) rs
  = (λ s, (s.1, SkipRecord s.2)) <$> AddRecords h d rs.
Proof.
  induction rs as [|r rs IH]; intros h d; simpl; [done|].
  rewrite AddRecord_SkipRecord.
  destruct (AddRecord h d r) as [[h1 d1]|]; simpl; [apply IH|done].
Qed.

(** X14.  A run of [aggregate] over a log that opens and in which no call of
    the reader fails, and no record has an error other than a missing field,
    returns no error and leaves the aggregator as feeding it the complete
    records in their order does, with the skip counter raised once more for
    every record with a missing field; it panics when that feeding does. *)
Theorem aggregate_without_errors (h : heap) (d : DNSAggregator)
    (items : list nextResult) :
  Forall (λ item, fatal item = None) items →
  aggregate h d (Opened items)
  = (λ s, (None, (s.1, Nat.iter (missingFields items) SkipRecord s.2)))
      <$> AddRecords h d (completeRecords items).
Proof.
  simpl. revert h d.
  induction items as [|item items IH]; intros h d Hok; [done|].
  apply Forall_cons in Hok as [Hitem Hok].
  destruct item as [e|r [[|e]|]]; try done; simpl.
  - rewrite (IH _ _ Hok), AddRecords_SkipRecord.
    destruct (AddRecords h d (completeRecords items)) as [[h' d']|]; [|done].
    simpl. unfold missingFields. simpl. by rewrite Nat.iter_swap.
  - destruct (AddRecord h d r) as [[h1 d1]|]; [|done]. by apply IH.
Qed.

Lemma aggregate_without_errors_witness :
  Forall (λ item, fatal item = None) sampleItems
  ∧ aggregate [] NewDNSAggregator (Opened sampleItems)
    = (λ s, (None, (s.1, Nat.iter (missingFields sampleItems) SkipRecord s.2)))
        <$> AddRecords [] NewDNSAggregator (completeRecords sampleItems).
Proof.
  assert (Forall (λ item, fatal item = None) sampleItems) as Hok
    by (repeat constructor).
  split; [exact Hok|].
  exact (aggregate_without_errors [] NewDNSAggregator sampleItems Hok).
Defined.

(** X15.  [aggregate] returns the first error of the reader, or of a record
    when it is no missing field, and reads nothing after it; what the records
    before it did to the aggregator stays. *)
Theorem aggregate_stops_at_first_error (h : heap) (d : DNSAggregator)
    (pre post : list nextResult) (bad : nextResult) (e : string) :
  Forall (λ item, fatal item = None) pre →
  fatal bad = Some e →
  aggregate h d (Opened (pre ++ bad :: post))
  = (λ res, (Some e, res.2)) <$> aggregate h d (Opened pre).
Proof.
  simpl. intros Hpre Hbad. revert h d.
  induction pre as [|item pre IH]; intros h d.
  { simpl. by destruct bad as [e'|r [[|e']|]]; simplify_eq/=. }
  apply Forall_cons in Hpre as [Hitem Hpre].
  destruct item as [e'|r [[|e']|]]; try done; simpl.
  - by apply IH.
  - destruct (AddRecord h d r) as [[h1 d1]|]; [|done]. by apply IH.
Qed.

Lemma aggregate_stops_at_first_error_witness :
  Forall (λ item, fatal item = None) sampleItems
  ∧ fatal (NextFails "unexpected EOF") = Some "unexpected EOF"
  ∧ aggregate [] NewDNSAggregator
      (Opened (sampleItems ++ NextFails "unexpected EOF" :: [NextRecord R5 None]))
    = (λ res, (Some "unexpected EOF", res.2))
        <$> aggregate [] NewDNSAggregator (Opened sampleItems).
Proof.
  assert (Forall (λ item, fatal item = None) sampleItems) as Hok
    by (repeat constructor).
  split; [exact Hok|]. split; [reflexivity|].
  exact (aggregate_stops_at_first_error [] NewDNSAggregator sampleItems
           [NextRecord R5 None] (NextFails "unexpected EOF") "unexpected EOF"
           Hok eq_refl).
Defined.

(** * Further properties of store_pg.go *)

Section store_extras.
Context `{Externals}.

Lemma update_tuples_done fuel T q ty a tt0 c f l ch T' :
  update_tuples fuel T q ty a tt0 c f l = Done (ch, T') →
  T' = <[(q, ty, a) := tupleUpsert (T !! (q, ty, a)) tt0 c f l]> T
  ∧ ch = (match T !! (q, ty, a) with Some _ => "U" | None => "I" end)%char.
Proof.
  destruct fuel as [|fuel]; [done|]. rewrite update_tuples_once.
  destruct (T !! (q, ty, a)) as [row|]; simpl.
  - destruct (int8_ok _); [|done]. by intros [= <- <-].
  - by intros [= <- <-].
Qed.

Lemma update_individual_done fuel T w v c f l ch T' :
  update_individual fuel T w v c f l = Done (ch, T') →
  T' = <[(w, v) := individualUpsert (T !! (w, v)) c f l]> T
  ∧ ch = (match T !! (w, v) with Some _ => "U" | None => "I" end)%char.
Proof.
  destruct fuel as [|fuel]; [done|]. rewrite update_individual_once.
  destruct (T !! (w, v)) as [row|]; simpl.
  - destruct (int8_ok _); [|done]. by intros [= <- <-].
  - by intros [= <- <-].
Qed.

Lemma execTupleCalls_cons_inv fuel a rows T codes T' :
  execTupleCalls fuel (a :: rows) T = Done (codes, T') →
  ∃ ttv codes',
    int4_in (ta_ttl a) = Some ttv
    ∧ execTupleCalls fuel rows
        (<[tupleKey a :=
             tupleUpsert (T !! tupleKey a) ttv (ta_count a) (ta_first a)
               (ta_last a)]> T) = Done (codes', T')
    ∧ codes = String (match T !! tupleKey a with Some _ => "U" | None => "I" end)%char codes'.
Proof.
  cbn [execTupleCalls]. destruct (int4_in (ta_ttl a)) as [ttv|]; [|done].
  destruct (int4_ok (ta_count a)); [|done].
  destruct (update_tuples fuel T _ _ _ _ _ _ _) as [[ch T1]| |] eqn:Hup;
    [|done..].
  apply update_tuples_done in Hup as [-> ->]. cbn [mbind run_bind].
  destruct (execTupleCalls fuel rows _) as [[codes' T2]| |] eqn:Hrest;
    [|done..].
  cbn [mbind run_bind]. intros [= <- <-]. exists ttv, codes'. done.
Qed.

Lemma execIndividualCalls_cons_inv fuel a rows T codes T' :
  execIndividualCalls fuel (a :: rows) T = Done (codes, T') →
  ∃ codes',
    execIndividualCalls fuel rows
      (<[individualKey a :=
           individualUpsert (T !! individualKey a) (ia_count a) (ia_first a)
             (ia_last a)]> T) = Done (codes', T')
    ∧ codes = String (match T !! individualKey a with Some _ => "U" | None => "I" end)%char codes'.
Proof.
  cbn [execIndividualCalls]. destruct (int4_ok (ia_count a)); [|done].
  destruct (update_individual fuel T _ _ _ _ _) as [[ch T1]| |] eqn:Hup;
    [|done..].
  apply update_individual_done in Hup as [-> ->]. cbn [mbind run_bind].
  destruct (execIndividualCalls fuel rows _) as [[codes' T2]| |] eqn:Hrest;
    [|done..].
  cbn [mbind run_bind]. intros [= <- <-]. by exists codes'.
Qed.

(** A call of [Update] that returns has run every row, tuples first. *)
Lemma Update_returned_inv fuel db ar res err db' :
  Update fuel db ar = Returned res err db' →
  ∃ c1 c2,
    execTupleCalls fuel (tupleArgsOf <$> Tuples ar) (tuples db)
      = Done (c1, tuples db')
    ∧ execIndividualCalls fuel (individualArgsOf <$> Individual ar)
        (individual db) = Done (c2, individual db')
    ∧ res = tally c2 (tally c1 {| Inserted := 0; Updated := 0 |})
    ∧ err = None.
Proof.
  rewrite Update_unfold. unfold execAllTuples, execAllIndividual. simpl.
  destruct (execTupleCalls fuel _ (tuples db)) as [[c1 T1]| |]; [|done..].
  cbn [mbind run_bind work individual tuples result].
  destruct (execIndividualCalls fuel _ (individual db)) as [[c2 T2]| |];
    [|done..].
  cbn [mbind run_bind]. intros [= <- <- <-]. by exists c1, c2.
Qed.

Lemma tupleUpsert_fields old tt0 c f l :
  t_count (tupleUpsert old tt0 c f l) = from_option t_count 0 old + c
  ∧ t_ttl (tupleUpsert old tt0 c f l) = tt0
  ∧ t_first (tupleUpsert old tt0 c f l) = Z.min (from_option t_first f old) f
  ∧ t_last (tupleUpsert old tt0 c f l) = Z.max (from_option t_last l old) l.
Proof. destruct old as [row|]; simpl; split_and!; lia. Qed.

Lemma individualUpsert_fields old c f l :
  i_count (individualUpsert old c f l) = from_option i_count 0 old + c
  ∧ i_first (individualUpsert old c f l) = Z.min (from_option i_first f old) f
  ∧ i_last (individualUpsert old c f l) = Z.max (from_option i_last l old) l.
Proof. destruct old as [row|]; simpl; split_and!; lia. Qed.

Lemma execTupleCalls_row fuel rows : ∀ T codes T' k,
  execTupleCalls fuel rows T = Done (codes, T') →
  match filter (λ a, tupleKey a = k) rows with
  | [] => T' !! k = T !! k
  | a1 :: rest =>
      ∃ row', T' !! k = Some row'
        ∧ t_count row' =
            from_option t_count 0 (T !! k)
            + foldr Z.add 0 (ta_count <$> a1 :: rest)
        ∧ t_first row' =
            foldl Z.min (from_option t_first (ta_first a1) (T !! k))
              (ta_first <$> a1 :: rest)
        ∧ t_last row' =
            foldl Z.max (from_option t_last (ta_last a1) (T !! k))
              (ta_last <$> a1 :: rest)
        ∧ list.last (a1 :: rest) ≫= (λ a, int4_in (ta_ttl a))
          = Some (t_ttl row')
  end.
Proof.
  induction rows as [|a0 rows IH]; intros T codes T' k Hrun.
  { injection Hrun as _ <-. done. }
  apply execTupleCalls_cons_inv in Hrun as (ttv & codes' & Httl & Hrest & _).
  specialize (IH _ _ _ k Hrest).
  destruct (decide (tupleKey a0 = k)) as [Hk|Hk].
  - subst k. rewrite filter_cons_True by done.
    rewrite lookup_insert_eq in IH.
    destruct (tupleUpsert_fields (T !! tupleKey a0) ttv (ta_count a0)
                (ta_first a0) (ta_last a0)) as (Hc & Ht & Hf & Hl).
    destruct (filter _ rows) as [|a1 rest].
    + eexists. split; [exact IH|].
      rewrite Hc, Ht, Hf, Hl. simpl. rewrite Httl. split_and!; try done; lia.
    + destruct IH as (row' & Hrow & Hc' & Hf' & Hl' & Ht').
      exists row'. split; [done|].
      simpl in *. rewrite Hc', Hf', Hl', Hc, Hf, Hl. split_and!; try done; lia.
  - rewrite filter_cons_False by done.
    by rewrite lookup_insert_ne in IH.
Qed.

Lemma execIndividualCalls_row fuel rows : ∀ T codes T' k,
  execIndividualCalls fuel rows T = Done (codes, T') →
  match filter (λ a, individualKey a = k) rows with
  | [] => T' !! k = T !! k
  | a1 :: rest =>
      ∃ row', T' !! k = Some row'
        ∧ i_count row' =
            from_option i_count 0 (T !! k)
            + foldr Z.add 0 (ia_count <$> a1 :: rest)
        ∧ i_first row' =
            foldl Z.min (from_option i_first (ia_first a1) (T !! k))
              (ia_first <$> a1 :: rest)
        ∧ i_last row' =
            foldl Z.max (from_option i_last (ia_last a1) (T !! k))
              (ia_last <$> a1 :: rest)
  end.
Proof.
  induction rows as [|a0 rows IH]; intros T codes T' k Hrun.
  { injection Hrun as _ <-. done. }
  apply execIndividualCalls_cons_inv in Hrun as (codes' & Hrest & _).
  specialize (IH _ _ _ k Hrest).
  destruct (decide (individualKey a0 = k)) as [Hk|Hk].
  - subst k. rewrite filter_cons_True by done.
    rewrite lookup_insert_eq in IH.
    destruct (individualUpsert_fields (T !! individualKey a0) (ia_count a0)
                (ia_first a0) (ia_last a0)) as (Hc & Hf & Hl).
    destruct (filter _ rows) as [|a1 rest].
    + eexists. split; [exact IH|].
      rewrite Hc, Hf, Hl. simpl. split_and!; try done; lia.
    + destruct IH as (row' & Hrow & Hc' & Hf' & Hl').
      exists row'. split; [done|].
      simpl in *. rewrite Hc', Hf', Hl', Hc, Hf, Hl. split_and!; try done; lia.
  - rewrite filter_cons_False by done.
    by rewrite lookup_insert_ne in IH.
Qed.


End store_extras.


Section store_invariants.
Context `{Externals}.

Lemma tally_counts codes : ∀ r,
  Inserted (tally codes r) = Inserted r + insertedCodes codes
  ∧ Updated (tally codes r)
    = Updated r + (Z.of_nat (String.length codes) - insertedCodes codes).
Proof.
  induction codes as [|ch codes IH]; intros r; [simpl; lia|].
  cbn [tally insertedCodes String.length].
  destruct (IH (if Ascii.eqb ch "I"
                then {| Inserted := Inserted r + 1; Updated := Updated r |}
                else {| Inserted := Inserted r; Updated := Updated r + 1 |}))
    as [-> ->].
  destruct (Ascii.eqb ch "I"); simpl; lia.
Qed.

Lemma execTupleCalls_codes fuel rows : ∀ T codes T',
  execTupleCalls fuel rows T = Done (codes, T') →
  String.length codes = List.length rows
  ∧ Z.of_nat (size T') = Z.of_nat (size T) + insertedCodes codes.
Proof.
  induction rows as [|a rows IH]; intros T codes T' Hrun.
  { injection Hrun as <- <-. simpl. lia. }
  apply execTupleCalls_cons_inv in Hrun as (ttv & codes' & _ & Hrest & ->).
  apply IH in Hrest as [Hlen Hsize]. cbn [String.length insertedCodes].
  rewrite Hlen, Hsize. split; [done|].
  destruct (T !! tupleKey a) as [row|] eqn:Hk.
  - rewrite map_size_insert_Some by done. simpl. lia.
  - rewrite map_size_insert_None by done. simpl. lia.
Qed.

Lemma execIndividualCalls_codes fuel rows : ∀ T codes T',
  execIndividualCalls fuel rows T = Done (codes, T') →
  String.length codes = List.length rows
  ∧ Z.of_nat (size T') = Z.of_nat (size T) + insertedCodes codes.
Proof.
  induction rows as [|a rows IH]; intros T codes T' Hrun.
  { injection Hrun as <- <-. simpl. lia. }
  apply execIndividualCalls_cons_inv in Hrun as (codes' & Hrest & ->).
  apply IH in Hrest as [Hlen Hsize]. cbn [String.length insertedCodes].
  rewrite Hlen, Hsize. split; [done|].
  destruct (T !! individualKey a) as [row|] eqn:Hk.
  - rewrite map_size_insert_Some by done. simpl. lia.
  - rewrite map_size_insert_None by done. simpl. lia.
Qed.

(** X17.  The counters a call of [Update] returns: [Inserted] and [Updated]
    add up to the number of entries of the snapshot, and [Inserted] is the
    number of rows the two tables have gained. *)
Theorem Update_result_counts (fuel : nat) (db : database)
    (ar : aggregationResult) (res : UpdateResult) (err : option string)
    (db' : database) :
  Update fuel db ar = Returned res err db' →
  Inserted res + Updated res
    = Z.of_nat (List.length (Tuples ar)) + Z.of_nat (List.length (Individual ar))
  ∧ Inserted res
    = (Z.of_nat (size (tuples db')) - Z.of_nat (size (tuples db)))
      + (Z.of_nat (size (individual db')) - Z.of_nat (size (individual db))).
Proof.
  intros Hrun.
  apply Update_returned_inv in Hrun as (c1 & c2 & Ht & Hi & -> & _).
  apply execTupleCalls_codes in Ht as [Hl1 Hs1].
  apply execIndividualCalls_codes in Hi as [Hl2 Hs2].
  rewrite length_fmap in Hl1. rewrite length_fmap in Hl2.
  destruct (tally_counts c2 (tally c1 {| Inserted := 0; Updated := 0 |}))
    as [-> ->].
  destruct (tally_counts c1 {| Inserted := 0; Updated := 0 |}) as [-> ->].
  simpl. lia.
Qed.

Lemma foldl_min_le l : ∀ x, foldl Z.min x l ≤ x.
Proof.
  induction l as [|y l IH]; intros x; simpl; [lia|].
  specialize (IH (Z.min x y)). lia.
Qed.

Lemma foldl_max_ge l : ∀ x, x ≤ foldl Z.max x l.
Proof.
  induction l as [|y l IH]; intros x; simpl; [lia|].
  specialize (IH (Z.max x y)). lia.
Qed.

(** X18.  A call of [Update] that returns deletes no row, and on the rows
    that were there [first] can only have gone down and [last] only up. *)
Theorem Update_only_widens (fuel : nat) (db : database)
    (ar : aggregationResult) (res : UpdateResult) (err : option string)
    (db' : database) :
  Update fuel db ar = Returned res err db' →
  (∀ k row, tuples db !! k = Some row →
     ∃ row', tuples db' !! k = Some row'
       ∧ t_first row' ≤ t_first row ∧ t_last row ≤ t_last row')
  ∧ (∀ k row, individual db !! k = Some row →
     ∃ row', individual db' !! k = Some row'
       ∧ i_first row' ≤ i_first row ∧ i_last row ≤ i_last row').
Proof.
  intros Hrun.
  apply Update_returned_inv in Hrun as (c1 & c2 & Ht & Hi & _ & _).
  split; intros k row Hrow.
  - pose proof (execTupleCalls_row _ _ _ _ _ k Ht) as Hk.
    destruct (filter _ _) as [|a1 rest].
    + exists row. rewrite Hk. split; [done|lia].
    + destruct Hk as (row' & Hrow' & _ & Hf & Hl & _). exists row'.
      rewrite Hrow in Hf, Hl. simpl in Hf, Hl. rewrite Hf, Hl.
      split; [done|]. split.
      * etrans; [apply foldl_min_le|]. lia.
      * etrans; [|apply foldl_max_ge]. lia.
  - pose proof (execIndividualCalls_row _ _ _ _ _ k Hi) as Hk.
    destruct (filter _ _) as [|a1 rest].
    + exists row. rewrite Hk. split; [done|lia].
    + destruct Hk as (row' & Hrow' & _ & Hf & Hl). exists row'.
      rewrite Hrow in Hf, Hl. simpl in Hf, Hl. rewrite Hf, Hl.
      split; [done|]. split.
      * etrans; [apply foldl_min_le|]. lia.
      * etrans; [|apply foldl_max_ge]. lia.
Qed.

Lemma execTupleCalls_ordered fuel rows : ∀ T codes T',
  execTupleCalls fuel rows T = Done (codes, T') →
  map_Forall (λ _ row, t_first row ≤ t_last row) T →
  Forall (λ a, ta_first a ≤ ta_last a) rows →
  map_Forall (λ _ row, t_first row ≤ t_last row) T'.
Proof.
  induction rows as [|a rows IH]; intros T codes T' Hrun HT Hrows.
  { by injection Hrun as _ <-. }
  apply Forall_cons in Hrows as [Ha Hrows].
  apply execTupleCalls_cons_inv in Hrun as (ttv & codes' & _ & Hrest & _).
  apply (IH _ _ _ Hrest); [|done].
  apply map_Forall_insert_2; [|done].
  destruct (T !! tupleKey a) as [row|] eqn:Hk; simpl; [|done].
  specialize (HT _ _ Hk). simpl in HT. lia.
Qed.

Lemma execIndividualCalls_ordered fuel rows : ∀ T codes T',
  execIndividualCalls fuel rows T = Done (codes, T') →
  map_Forall (λ _ row, i_first row ≤ i_last row) T →
  Forall (λ a, ia_first a ≤ ia_last a) rows →
  map_Forall (λ _ row, i_first row ≤ i_last row) T'.
Proof.
  induction rows as [|a rows IH]; intros T codes T' Hrun HT Hrows.
  { by injection Hrun as _ <-. }
  apply Forall_cons in Hrows as [Ha Hrows].
  apply execIndividualCalls_cons_inv in Hrun as (codes' & Hrest & _).
  apply (IH _ _ _ Hrest); [|done].
  apply map_Forall_insert_2; [|done].
  destruct (T !! individualKey a) as [row|] eqn:Hk; simpl; [|done].
  specialize (HT _ _ Hk). simpl in HT. lia.
Qed.

(** X19.  The stored rows keep [first ≤ last] through a call of [Update]
    that returns, when every entry of the snapshot has its [first] no later
    than its [last] once converted by [ToTS].  For the rows that were there
    the entries need not even be so. *)
Theorem Update_keeps_rows_ordered (fuel : nat) (db : database)
    (ar : aggregationResult) (res : UpdateResult) (err : option string)
    (db' : database) :
  Update fuel db ar = Returned res err db' →
  map_Forall (λ _ row, t_first row ≤ t_last row) (tuples db) →
  map_Forall (λ _ row, i_first row ≤ i_last row) (individual db) →
  Forall (λ q, ToTS (first q.2) ≤ ToTS (last q.2)) (Tuples ar) →
  Forall (λ q, ToTS (first q.2) ≤ ToTS (last q.2)) (Individual ar) →
  map_Forall (λ _ row, t_first row ≤ t_last row) (tuples db')
  ∧ map_Forall (λ _ row, i_first row ≤ i_last row) (individual db').
Proof.
  intros Hrun HT HI Hts His.
  apply Update_returned_inv in Hrun as (c1 & c2 & Ht & Hi & _ & _). split.
  - apply (execTupleCalls_ordered _ _ _ _ _ Ht HT).
    by apply Forall_fmap.
  - apply (execIndividualCalls_ordered _ _ _ _ _ Hi HI).
    by apply Forall_fmap.
Qed.

(** X20.  The batches of 200 rows do not show in the outcome of [Update]:
    the call ends as running the calls of all the tuple rows and then those of
    all the individual rows does, one after the other in the one transaction;
    the result and the tables are those of that run when it succeeds, the
    process exits with the tables as they were when a call fails. *)
Theorem Update_batches_are_transparent (fuel : nat) (db : database)
    (ar : aggregationResult) :
  Update fuel db ar =
    match
      execAllTuples fuel (tupleArgsOf <$> Tuples ar) (BeginTx db)
        ≫= execAllIndividual fuel (individualArgsOf <$> Individual ar)
    with
    | Done st => Returned (result st) None (work st)
    | Raise => Exited db
    | Spin => Hangs
    end.
Proof. apply Update_unfold. Qed.

End store_invariants.

Lemma Update_result_counts_witness :
  @Update sampleExternals 1 storedDB snapshotR123
    = Returned (returned updateR123) None (committed updateR123)
  ∧ Inserted (returned updateR123) + Updated (returned updateR123)
    = Z.of_nat (List.length (Tuples snapshotR123))
      + Z.of_nat (List.length (Individual snapshotR123))
  ∧ Inserted (returned updateR123)
    = (Z.of_nat (size (tuples (committed updateR123)))
       - Z.of_nat (size (tuples storedDB)))
      + (Z.of_nat (size (individual (committed updateR123)))
         - Z.of_nat (size (individual storedDB))).
Proof.
  assert (@Update sampleExternals 1 storedDB snapshotR123
          = Returned (returned updateR123) None (committed updateR123))
    as Hrun by (vm_compute; reflexivity).
  split; [exact Hrun|].
  exact (@Update_result_counts sampleExternals 1 storedDB snapshotR123
           _ _ _ Hrun).
Defined.

Lemma Update_only_widens_witness :
  @Update sampleExternals 1 storedDB snapshotDeltas
    = Returned (returned updateDeltas) None (committed updateDeltas)
  ∧ tuples storedDB !! storedKeyT
    = Some {| t_count := 10; t_ttl := 300; t_first := 50; t_last := 60 |}
  ∧ ∃ row', tuples (committed updateDeltas) !! storedKeyT = Some row'
      ∧ t_first row' ≤ 50 ∧ 60 ≤ t_last row'.
Proof.
  assert (@Update sampleExternals 1 storedDB snapshotDeltas
          = Returned (returned updateDeltas) None (committed updateDeltas))
    as Hrun by (vm_compute; reflexivity).
  assert (tuples storedDB !! storedKeyT
          = Some {| t_count := 10; t_ttl := 300; t_first := 50; t_last := 60 |})
    as Hrow by (vm_compute; reflexivity).
  split; [exact Hrun|]. split; [exact Hrow|].
  exact (proj1 (@Update_only_widens sampleExternals 1 storedDB snapshotDeltas
                  _ _ _ Hrun) storedKeyT _ Hrow).
Defined.

Lemma Update_keeps_rows_ordered_witness :
  @Update sampleExternals 1 storedDB snapshotDeltas
    = Returned (returned updateDeltas) None (committed updateDeltas)
  ∧ map_Forall (λ _ row, t_first row ≤ t_last row) (tuples storedDB)
  ∧ map_Forall (λ _ row, i_first row ≤ i_last row) (individual storedDB)
  ∧ Forall (λ q, @ToTS sampleExternals (first q.2)
                 ≤ @ToTS sampleExternals (last q.2))
      (Tuples snapshotDeltas)
  ∧ Forall (λ q, @ToTS sampleExternals (first q.2)
                 ≤ @ToTS sampleExternals (last q.2))
      (Individual snapshotDeltas)
  ∧ map_Forall (λ _ row, t_first row ≤ t_last row)
      (tuples (committed updateDeltas))
  ∧ map_Forall (λ _ row, i_first row ≤ i_last row)
      (individual (committed updateDeltas)).
Proof.
  assert (@Update sampleExternals 1 storedDB snapshotDeltas
          = Returned (returned updateDeltas) None (committed updateDeltas))
    as Hrun by (vm_compute; reflexivity).
  assert (map_Forall (λ _ row, t_first row ≤ t_last row) (tuples storedDB))
    as HT by (apply map_Forall_singleton; simpl; lia).
  assert (map_Forall (λ _ row, i_first row ≤ i_last row) (individual storedDB))
    as HI by apply map_Forall_empty.
  assert (Forall (λ q, @ToTS sampleExternals (first q.2)
                       ≤ @ToTS sampleExternals (last q.2))
            (Tuples snapshotDeltas)) as Hts
    by (repeat constructor; simpl; lia).
  assert (Forall (λ q, @ToTS sampleExternals (first q.2)
                       ≤ @ToTS sampleExternals (last q.2))
            (Individual snapshotDeltas)) as His by constructor.
  refine (conj Hrun (conj HT (conj HI (conj Hts (conj His _))))).
  exact (@Update_keeps_rows_ordered sampleExternals 1 storedDB snapshotDeltas
           _ _ _ Hrun HT HI Hts His).
Defined.

(** ** [genFullBatchSelect] *)

Lemma int_wrap_id n : - 2 ^ 63 ≤ n < 2 ^ 63 → int_wrap n = n.
Proof. intros Hn. unfold int_wrap. rewrite Z.mod_small; lia. Qed.

Lemma paramLoop_spec n : ∀ args arg,
  0 ≤ arg → arg + Z.of_nat n < 2 ^ 63 →
  paramLoop n args arg
  = (args ++ (IntArg <$> seqZ arg (Z.of_nat n)), arg + Z.of_nat n).
Proof.
  induction n as [|n IH]; intros args arg Hpos Hmax.
  { simpl. by rewrite app_nil_r, Z.add_0_r. }
  cbn [paramLoop]. rewrite int_wrap_id by lia. rewrite IH by lia.
  rewrite (seqZ_cons arg (Z.of_nat (S n))) by lia.
  replace (Z.pred (Z.of_nat (S n))) with (Z.of_nat n) by lia.
  replace (Z.succ arg) with (arg + 1) by lia.
  replace (arg + 1 + Z.of_nat n) with (arg + Z.of_nat (S n)) by lia.
  by rewrite fmap_cons, <- (assoc_L (++)).
Qed.

Section genFullBatchSelect_facts.
Context `{GoStrings}.

Lemma batchLoop_spec tmpl p n : ∀ queries k,
  0 ≤ k → (k + Z.of_nat n) * Z.of_nat p < 2 ^ 63 - 1 →
  batchLoop tmpl p n queries (1 + k * Z.of_nat p)
  = queries
    ++ ((λ i, Sprintf tmpl (IntArg <$> seqZ (1 + i * Z.of_nat p) (Z.of_nat p)))
          <$> seqZ k (Z.of_nat n)).
Proof.
  induction n as [|n IH]; intros queries k Hk Hmax.
  { simpl. by rewrite app_nil_r. }
  cbn [batchLoop]. rewrite paramLoop_spec by nia. simpl.
  replace (1 + k * Z.of_nat p + Z.of_nat p) with (1 + (k + 1) * Z.of_nat p)
    by lia.
  rewrite IH by lia.
  rewrite (seqZ_cons k (Z.of_nat (S n))) by lia.
  replace (Z.pred (Z.of_nat (S n))) with (Z.of_nat n) by lia.
  replace (Z.succ k) with (k + 1) by lia.
  by rewrite fmap_cons, <- (assoc_L (++)).
Qed.

(** X21.  The statement [genFullBatchSelect] builds: [batchSize] copies of
    the template joined by [" || "] after ["SELECT "], where the copy number
    [i] (from 0) is given the placeholder numbers [i*p + 1, ..., i*p + p], [p]
    being the number of ["$"] in the template.  So the placeholders of the
    statement are numbered from 1 on without a gap, in the order of the
    flat argument slice that [Update] fills row by row.  The numbers must fit
    an [int]. *)
Theorem genFullBatchSelect_numbers_placeholders (tmpl : string)
    (batchSize : Z) :
  Z.of_nat (countDollars tmpl) * batchSize < 2 ^ 63 - 1 →
  genFullBatchSelect tmpl batchSize
  = Sprintf "SELECT %s"
      [StrArg
         (Join
            ((λ i, Sprintf tmpl
                     (IntArg <$> seqZ (1 + i * Z.of_nat (countDollars tmpl))
                                   (Z.of_nat (countDollars tmpl))))
               <$> seqZ 0 batchSize)
            " || ")].
Proof.
  intros Hmax. unfold genFullBatchSelect.
  pose proof (batchLoop_spec tmpl (countDollars tmpl) (Z.to_nat batchSize) [] 0)
    as Hloop.
  change (1 + 0 * Z.of_nat (countDollars tmpl)) with 1 in Hloop.
  rewrite Hloop; [|done|].
  - destruct (Z.le_gt_cases 0 batchSize).
    + by rewrite Z2Nat.id.
    + replace (Z.to_nat batchSize) with 0%nat by lia.
      by rewrite !seqZ_nil by lia.
  - destruct (Z.le_gt_cases 0 batchSize).
    + rewrite Z2Nat.id by done. lia.
    + replace (Z.to_nat batchSize) with 0%nat by lia. simpl. lia.
Qed.

End genFullBatchSelect_facts.

Lemma genFullBatchSelect_numbers_placeholders_witness :
  Z.of_nat (countDollars updateIndividualTmpl) * 2 < 2 ^ 63 - 1
  ∧ @genFullBatchSelect sampleStrings updateIndividualTmpl 2
    = "SELECT update_individual($1, $2, $3, to_timestamp($4)::timestamp, to_timestamp($5)::timestamp) || update_individual($6, $7, $8, to_timestamp($9)::timestamp, to_timestamp($10)::timestamp)".
Proof.
  assert (Z.of_nat (countDollars updateIndividualTmpl) * 2 < 2 ^ 63 - 1)
    as Hmax by (vm_compute; reflexivity).
  split; [exact Hmax|].
  rewrite (@genFullBatchSelect_numbers_placeholders sampleStrings
             updateIndividualTmpl 2 Hmax).
  vm_compute. reflexivity.
Defined.

(** ** From the aggregator to the tables *)



Section round_trip.
Context `{Externals}.
Hypothesis Reverse_inj : ∀ x y, Reverse x = Reverse y → x = y.




End round_trip.





